(** * openport: the tunnel broker core

    A shallow embedding of [web/src/lib/tunnel-agent.ts], [web/src/lib/client.ts]
    and the client manager, with the properties of the broker's specification
    stated over it.

    Every handler of the TypeScript sources is a function from the state of
    the object it mutates to the new state and the list of calls it makes on
    the outside world (events emitted, sockets destroyed, callbacks invoked).
    The Node.js event loop is the environment: it feeds events to the
    handlers one at a time, which is the single-threaded discipline the
    sources rely on.  Calls of [console.log], [console.error] and the
    [debug] logger change nothing and are left out.

    A JavaScript number that only ever counts (sockets, tunnels) is an
    integer; one that is configured from outside (the socket cap) is a
    rational, so that a fractional or negative cap can be written down.  The
    not-a-number value is falsy, as an absent option is, and is not told
    apart from one. *)

From Stdlib Require Import ZArith QArith Qround Lia.
From stdpp Require Import base list sorting gmap strings.

(** ** tunnel-agent.ts *)

Module TunnelAgent.

(** Identity of a [net.Socket] object. *)
Definition socket := nat.

(** Identity of a callback handed to [createConnection]. *)
Definition callback := nat.

Inductive error :=
| ErrClosed          (* new Error('closed') *)
| ErrAlreadyStarted. (* new Error('already started') *)

Inductive agent_event := Online | Offline | End.

(** The calls an agent handler makes on other objects. *)
Inductive action :=
| Emit (e : agent_event)                 (* this.emit(e) *)
| SocketDestroy (s : socket)             (* socket.destroy() *)
| Call (cb : callback) (err : option error) (sock : option socket)
                                         (* cb(err, sock) *)
| SetTimeout0 (fn : callback) (s : socket)
                                         (* setTimeout(() => fn(null, s), 0) *)
| ServerClose                            (* this.server.close() *)
| SuperDestroy                           (* super.destroy() of http.Agent *)
| Unhandled (s : socket).                (* s emits 'error' with no listener
                                            left: EventEmitter throws *)

#[global] Instance error_eq_dec : EqDecision error.
Proof. solve_decision. Defined.
#[global] Instance agent_event_eq_dec : EqDecision agent_event.
Proof. solve_decision. Defined.
#[global] Instance action_eq_dec : EqDecision action.
Proof. solve_decision. Defined.

Definition DEFAULT_MAX_SOCKETS : Q := 10.

Record TunnelAgentOptions := mkOptions {
  clientId : option string;
  opt_maxTcpSockets : option Q
}.

(** The private fields of the class, followed by the part of the event loop
    its handlers create: the one-shot listeners [_onConnection] installs on
    each socket it lets in, the zero-delay timers it starts (oldest first), and
    the number of socket objects the listener has produced so far (the next
    socket is numbered with it, so every connection is a fresh object). *)
Record t := mk {
  availableSockets : list socket;
  waitingCreateConn : list callback;
  connectedSockets : Z;
  maxTcpSockets : Q;
  started : bool;
  closed : bool;
  closeListeners : gset socket;
  errorListeners : gset socket;
  timers : list (callback * socket);
  accepted : nat
}.

Definition set_availableSockets (l : list socket) (a : t) : t :=
  mk l (waitingCreateConn a) (connectedSockets a) (maxTcpSockets a)
     (started a) (closed a) (closeListeners a) (errorListeners a)
     (timers a) (accepted a).

Definition set_waitingCreateConn (l : list callback) (a : t) : t :=
  mk (availableSockets a) l (connectedSockets a) (maxTcpSockets a)
     (started a) (closed a) (closeListeners a) (errorListeners a)
     (timers a) (accepted a).

Definition set_connectedSockets (n : Z) (a : t) : t :=
  mk (availableSockets a) (waitingCreateConn a) n (maxTcpSockets a)
     (started a) (closed a) (closeListeners a) (errorListeners a)
     (timers a) (accepted a).

Definition set_started (b : bool) (a : t) : t :=
  mk (availableSockets a) (waitingCreateConn a) (connectedSockets a)
     (maxTcpSockets a) b (closed a) (closeListeners a) (errorListeners a)
     (timers a) (accepted a).

Definition set_closed (b : bool) (a : t) : t :=
  mk (availableSockets a) (waitingCreateConn a) (connectedSockets a)
     (maxTcpSockets a) (started a) b (closeListeners a) (errorListeners a)
     (timers a) (accepted a).

Definition set_closeListeners (g : gset socket) (a : t) : t :=
  mk (availableSockets a) (waitingCreateConn a) (connectedSockets a)
     (maxTcpSockets a) (started a) (closed a) g (errorListeners a)
     (timers a) (accepted a).

Definition set_errorListeners (g : gset socket) (a : t) : t :=
  mk (availableSockets a) (waitingCreateConn a) (connectedSockets a)
     (maxTcpSockets a) (started a) (closed a) (closeListeners a) g
     (timers a) (accepted a).

Definition set_timers (l : list (callback * socket)) (a : t) : t :=
  mk (availableSockets a) (waitingCreateConn a) (connectedSockets a)
     (maxTcpSockets a) (started a) (closed a) (closeListeners a)
     (errorListeners a) l (accepted a).

Definition set_accepted (n : nat) (a : t) : t :=
  mk (availableSockets a) (waitingCreateConn a) (connectedSockets a)
     (maxTcpSockets a) (started a) (closed a) (closeListeners a)
     (errorListeners a) (timers a) n.

(** [options.maxTcpSockets || DEFAULT_MAX_SOCKETS]: an absent option and the
    falsy number 0 both give the default. *)
Definition or_default (o : option Q) : Q :=
  match o with
  | None => DEFAULT_MAX_SOCKETS
  | Some n => if Qeq_bool n 0 then DEFAULT_MAX_SOCKETS else n
  end.

(** [constructor(options)] *)
Definition new (options : TunnelAgentOptions) : t :=
  mk [] [] 0%Z (or_default (opt_maxTcpSockets options)) false false ∅ ∅ [] 0.

(** [stats()] *)
Definition stats (a : t) : Z := connectedSockets a.

(** [listen()]: throws when already started, otherwise installs the listener
    handlers ([started] records that they are in place). *)
Definition listen (a : t) : error + t :=
  if started a then inl ErrAlreadyStarted else inr (set_started true a).

(** [_onClose()] *)
Definition _onClose (a : t) : t * list action :=
  let a1 := set_closed true a in
  let flushed := map (fun conn => Call conn (Some ErrClosed) None)
                     (waitingCreateConn a1) in
  (set_waitingCreateConn [] a1, flushed ++ [Emit End]).

(** [Array.prototype.indexOf]: the first index holding [s], or -1. *)
Fixpoint indexOf (s : socket) (l : list socket) : Z :=
  match l with
  | [] => (-1)%Z
  | x :: l' =>
      if decide (x = s) then 0%Z
      else let i := indexOf s l' in
           if (i <? 0)%Z then (-1)%Z else (i + 1)%Z
  end.

(** [l.splice(idx, 1)] for an index within the array. *)
Definition splice1 (idx : Z) (l : list socket) : list socket :=
  take (Z.to_nat idx) l ++ drop (S (Z.to_nat idx)) l.

(** The [socket.once('close', ...)] listener of [_onConnection]. *)
Definition onSocketClose (s : socket) (a : t) : t * list action :=
  let a1 := set_connectedSockets (connectedSockets a - 1)%Z a in
  let idx := indexOf s (availableSockets a1) in
  let a2 := if (0 <=? idx)%Z
            then set_availableSockets (splice1 idx (availableSockets a1)) a1
            else a1 in
  if (connectedSockets a2 <=? 0)%Z then (a2, [Emit Offline]) else (a2, []).

(** The [socket.once('error', ...)] listener of [_onConnection]. *)
Definition onSocketError (s : socket) (a : t) : t * list action :=
  (a, [SocketDestroy s]).

(** [n >= cap] for a count [n] and a cap [cap]. *)
Definition numGe (n : Z) (cap : Q) : bool := Qle_bool cap (inject_Z n).
Arguments numGe : simpl never.

(** [_onConnection(socket)] *)
Definition _onConnection (s : socket) (a : t) : t * list action :=
  if numGe (connectedSockets a) (maxTcpSockets a) then (a, [SocketDestroy s])
  else
    let a1 := set_closeListeners ({[s]} ∪ closeListeners a) a in
    let a2 := set_errorListeners ({[s]} ∪ errorListeners a1) a1 in
    let online := if (connectedSockets a2 =? 0)%Z then [Emit Online] else [] in
    let a3 := set_connectedSockets (connectedSockets a2 + 1)%Z a2 in
    match waitingCreateConn a3 with
    | fn :: rest =>
        (set_timers (timers a3 ++ [(fn, s)]) (set_waitingCreateConn rest a3),
         online ++ [SetTimeout0 fn s])
    | [] =>
        (set_availableSockets (availableSockets a3 ++ [s]) a3, online)
    end.

(** [createConnection(client, cb)]; the [client] argument is not used. *)
Definition createConnection (cb : callback) (a : t) : t * list action :=
  if closed a then (a, [Call cb (Some ErrClosed) None])
  else
    match availableSockets a with
    | [] => (set_waitingCreateConn (waitingCreateConn a ++ [cb]) a, [])
    | sock :: rest => (set_availableSockets rest a, [Call cb None (Some sock)])
    end.

(** [destroy()] *)
Definition destroy (a : t) : t * list action :=
  (a, [ServerClose; SuperDestroy]).

(** What the event loop can do to an agent.  The listener's handlers exist
    only once [listen] has installed them; a socket's one-shot listeners run,
    and are removed, at the first matching event of that socket.  An
    ['error'] event of a socket that carries no ['error'] listener (any more)
    is not handled by the agent: EventEmitter throws it. *)
Inductive event :=
| Listen                          (* a call of listen() *)
| Connection                      (* the listener's 'connection' event *)
| SocketClose (s : socket)        (* 'close' event of socket s *)
| SocketError (s : socket)        (* 'error' event of socket s *)
| ServerClosed                    (* the listener's 'close' event *)
| CreateConnection (cb : callback)(* a call of createConnection(_, cb) *)
| Destroy                         (* a call of destroy() *)
| TimerFire.                      (* the oldest zero-delay timer runs *)

#[global] Instance event_eq_dec : EqDecision event.
Proof. solve_decision. Defined.

Definition step (a : t) (e : event) : t * list action :=
  match e with
  | Listen =>
      match listen a with
      | inl _ => (a, [])
      | inr a' => (a', [])
      end
  | Connection =>
      if started a
      then _onConnection (accepted a) (set_accepted (S (accepted a)) a)
      else (a, [])
  | SocketClose s =>
      if decide (s ∈ closeListeners a)
      then onSocketClose s (set_closeListeners (closeListeners a ∖ {[s]}) a)
      else (a, [])
  | SocketError s =>
      if decide (s ∈ errorListeners a)
      then onSocketError s (set_errorListeners (errorListeners a ∖ {[s]}) a)
      else (a, [Unhandled s])
  | ServerClosed => if started a then _onClose a else (a, [])
  | CreateConnection cb => createConnection cb a
  | Destroy => destroy a
  | TimerFire =>
      match timers a with
      | (fn, s) :: rest => (set_timers rest a, [Call fn None (Some s)])
      | [] => (a, [])
      end
  end.

(** The agent after a sequence of events, and everything it did meanwhile. *)
Fixpoint exec (a : t) (evs : list event) : t :=
  match evs with
  | [] => a
  | e :: evs' => exec (step a e).1 evs'
  end.

Fixpoint trace (a : t) (evs : list event) : list action :=
  match evs with
  | [] => []
  | e :: evs' => (step a e).2 ++ trace (step a e).1 evs'
  end.

(** Two facts every run keeps: the count is the number of sockets still
    carrying the one-shot ['close'] listener, and those sockets were all
    produced by the listener. *)
Definition inv (a : t) : Prop :=
  connectedSockets a = Z.of_nat (size (closeListeners a))
  /\ forall s, s ∈ closeListeners a -> s < accepted a.

(** Does [_onConnection] let the next connection in. *)
Definition has_room (a : t) : bool :=
  started a && negb (numGe (connectedSockets a) (maxTcpSockets a)).

(** The socket a connection event lets into the pool, if it lets one in. *)
Definition joined_now (a : t) (e : event) : list socket :=
  match e with
  | Connection => if has_room a then [accepted a] else []
  | _ => []
  end.

(** The sockets let in during a run, in order of arrival. *)
Fixpoint joined (a : t) (evs : list event) : list socket :=
  match evs with
  | [] => []
  | e :: evs' => joined_now a e ++ joined (step a e).1 evs'
  end.




(** How many times a list of calls emits the agent event [x]. *)
Definition emits (x : agent_event) (acts : list action) : nat :=
  length (filter (fun y => y = Emit x) acts).

(** The last sentence of the specification's rule for ['offline'], read
    literally: the event is emitted on the edge from 1 to 0 only while the
    agent is not closed. *)
Definition offline_only_while_open (a : t) (e : event) : Prop :=
  emits Offline (step a e).2 =
    (if bool_decide (connectedSockets a = 1%Z
                     /\ connectedSockets (step a e).1 = 0%Z
                     /\ closed a = false)
     then 1 else 0).

(** The specification's sentences on [destroy()], read literally: the call
    tears down every socket of the pool, and a [createConnection] made after
    it is completed with the error [closed]. *)
Definition destroy_tears_down_pool (a : t) : Prop :=
  forall s, s ∈ availableSockets a -> SocketDestroy s ∈ (destroy a).2.

Definition destroy_then_rejects (a : t) (cb : callback) : Prop :=
  (createConnection cb (destroy a).1).2 = [Call cb (Some ErrClosed) None].

(** The sockets a list of calls hands to callbacks: the [s] of every
    [cb(null, s)]. *)
Definition calledSockets (acts : list action) : list socket :=
  omap (fun x => match x with
                 | Call _ None (Some s) => Some s
                 | _ => None
                 end) acts.

(** The sockets the agent holds for later delivery: the pool, then the
    sockets of the pending zero-delay timers. *)
Definition held (a : t) : list socket :=
  availableSockets a ++ map snd (timers a).

(** The pool is in order of arrival and holds live sockets only. *)
Definition pool_inv (a : t) : Prop :=
  StronglySorted lt (availableSockets a)
  /\ forall s, s ∈ availableSockets a -> s ∈ closeListeners a.

(** No socket is held twice, and every held socket came from the
    listener. *)
Definition held_inv (a : t) : Prop :=
  NoDup (held a) /\ forall s, s ∈ held a -> s < accepted a.

(** The callbacks a list of calls completes, with a socket or with an
    error, in order. *)
Definition completions (acts : list action) : list callback :=
  omap (fun x => match x with
                 | Call cb _ _ => Some cb
                 | _ => None
                 end) acts.

(** The callbacks given to [createConnection] during a run, in order. *)
Definition requests (evs : list event) : list callback :=
  omap (fun e => match e with
                 | CreateConnection cb => Some cb
                 | _ => None
                 end) evs.

(** The callbacks not completed yet: those bound to a pending zero-delay
    timer, then those in the wait queue. *)
Definition pending (a : t) : list callback :=
  map fst (timers a) ++ waitingCreateConn a.

(** The sockets let in so far whose ['close'] event has not come yet, in
    order of arrival: [l] lists them at the start of the run. *)
Fixpoint openSockets (a : t) (l : list socket) (evs : list event)
  : list socket :=
  match evs with
  | [] => l
  | e :: evs' =>
      openSockets (step a e).1
        (match e with
         | SocketClose s => filter (fun x => x <> s) l
         | _ => l
         end ++ joined_now a e)
        evs'
  end.


End TunnelAgent.

(** ** client.ts *)

Module Client.

(** A listener registered on a Client with [once('close', ...)].  The only
    code that registers one is the manager's [newClient], whose closure
    [() => this.removeClient(id)] is determined by the id it captures. *)
Definition listener := string.

(** The objects the forwarders stream between. *)
Inductive stream :=
| Req                                (* the external http.IncomingMessage *)
| Res                                (* the external http.ServerResponse *)
| ClientReq                          (* the upstream http.ClientRequest *)
| ClientRes                          (* the upstream response *)
| ExtSocket                          (* the external socket of an upgrade *)
| Conn (s : TunnelAgent.socket).     (* a pooled tunnel socket *)

Definition headers := list (string * string).

Inductive action :=
| ClearTimeout                         (* clearTimeout(this.graceTimeout) *)
| SetGraceTimeout                      (* setTimeout(close, 1000).unref() *)
| AgentDoes (a : TunnelAgent.action)   (* a call made inside the agent *)
| EmitClose                            (* this.emit('close') *)
| HttpRequest (path method : string) (h : headers)
                                       (* http.request(opt, cb) *)
| WriteHead (status : Z) (h : headers) (* res.writeHead(status, h) *)
| Pump (src dst : stream)              (* pump(src, dst) *)
| SocketEnd                            (* socket.end() *)
| ConnDestroy (s : TunnelAgent.socket) (* conn.destroy() *)
| ConnWrite (s : TunnelAgent.socket) (data : string).
                                       (* conn.write(data) *)

#[global] Instance stream_eq_dec : EqDecision stream.
Proof. solve_decision. Defined.
#[global] Instance client_action_eq_dec : EqDecision action.
Proof. solve_decision. Defined.

Record t := mk {
  agent : TunnelAgent.t;
  id : string;
  graceTimeout : bool;          (* is the grace timer armed *)
  closeOnce : list listener     (* listeners of once('close') *)
}.

Definition set_agent (a : TunnelAgent.t) (c : t) : t :=
  mk a (id c) (graceTimeout c) (closeOnce c).
Definition set_graceTimeout (b : bool) (c : t) : t :=
  mk (agent c) (id c) b (closeOnce c).
Definition set_closeOnce (l : list listener) (c : t) : t :=
  mk (agent c) (id c) (graceTimeout c) l.

(** [constructor(options)]: arms the grace timer; the three subscriptions to
    the agent are the handlers [onAgentOnline], [onAgentOffline] and
    [onAgentError] below. *)
Definition new (id : string) (agent : TunnelAgent.t) : t * list action :=
  (mk agent id true [], [SetGraceTimeout]).

(** [once('close', l)] *)
Definition onceClose (l : listener) (c : t) : t :=
  set_closeOnce (closeOnce c ++ [l]) c.

(** [stats()] *)
Definition stats (c : t) : Z := TunnelAgent.stats (agent c).

(** [close()].  The third component lists the one-shot listeners that
    [emit('close')] runs, in registration order; they are unregistered before
    they run. *)
Definition close (c : t) : t * list action * list listener :=
  let c1 := set_graceTimeout false c in
  let '(ag, acts) := TunnelAgent.destroy (agent c1) in
  let c2 := set_agent ag c1 in
  (set_closeOnce [] c2,
   [ClearTimeout] ++ map AgentDoes acts ++ [EmitClose],
   closeOnce c2).


(** How many times a list of calls emits the Client's ['close'] event. *)
Definition closeEmissions (acts : list action) : nat :=
  length (filter (fun x => x = EmitClose) acts).


(** The agent's ['online'] listener. *)
Definition onAgentOnline (c : t) : t * list action :=
  (set_graceTimeout false c, [ClearTimeout]).

(** The agent's ['offline'] listener. *)
Definition onAgentOffline (c : t) : t * list action :=
  (set_graceTimeout true (set_graceTimeout false c),
   [ClearTimeout; SetGraceTimeout]).

(** The agent's one-shot ['error'] listener. *)
Definition onAgentError (c : t) : t * list action * list listener := close c.

Record IncomingMessage := mkReq {
  url : string;
  method : string;
  httpVersion : string;
  req_headers : headers;
  rawHeaders : list string
}.

Record ClientResponse := mkRes {
  statusCode : option Z;
  res_headers : headers
}.

(** [clientRes.statusCode || 500] *)
Definition statusOr500 (o : option Z) : Z :=
  match o with
  | None => 500%Z
  | Some n => if (n =? 0)%Z then 500%Z else n
  end.

(** [handleRequest(req, res)]: the calls made before it returns. *)
Definition handleRequest (req : IncomingMessage) : list action :=
  [HttpRequest (url req) (method req) (req_headers req); Pump Req ClientReq].

(** The response callback given to [http.request]. *)
Definition onResponse (clientRes : ClientResponse) : list action :=
  [WriteHead (statusOr500 (statusCode clientRes)) (res_headers clientRes);
   Pump ClientRes Res].

(** The [clientReq.once('error', ...)] listener: its body is empty. *)
Definition onClientReqError : list action := [].

(** What the upstream side of one forwarded request can do. *)
Inductive upstream_event :=
| UpstreamResponse (r : ClientResponse)
| UpstreamError.

(** The external response: have its headers been written. *)
Record exchange := mkExchange { headersSent : bool }.

Definition exchange_step (x : exchange) (e : upstream_event)
  : exchange * list action :=
  match e with
  | UpstreamResponse r => (mkExchange true, onResponse r)
  | UpstreamError => (x, onClientReqError)
  end.

(** A forwarded request from [handleRequest] on, and the calls it makes. *)
Fixpoint exchange_run (x : exchange) (evs : list upstream_event)
  : exchange * list action :=
  match evs with
  | [] => (x, [])
  | e :: evs' =>
      let '(x1, o1) := exchange_step x e in
      let '(x2, o2) := exchange_run x1 evs' in
      (x2, o1 ++ o2)
  end.

Definition forward (req : IncomingMessage) (evs : list upstream_event)
  : exchange * list action :=
  let '(x, o) := exchange_run (mkExchange false) evs in
  (x, handleRequest req ++ o).

(** Carriage return, line feed. *)
Definition CRLF : string :=
  String (Ascii.ascii_of_nat 13) (String (Ascii.ascii_of_nat 10) EmptyString).

(** [Array.prototype.join] *)
Fixpoint join (sep : string) (arr : list string) : string :=
  match arr with
  | [] => EmptyString
  | [x] => x
  | x :: rest => x +:+ sep +:+ join sep rest
  end.

(** [rawHeaders[i]]; an index past the end reads [undefined], which the
    template literal prints as such. *)
Definition at_index (raw : list string) (i : nat) : string :=
  match raw !! i with
  | Some x => x
  | None => "undefined"
  end.

(** [for (let i = 0; i < rawHeaders.length - 1; i += 2) arr.push(...)],
    from index [i] on; [fuel] bounds the number of iterations. *)
Fixpoint headerLoop (fuel : nat) (i : nat) (raw : list string)
  (arr : list string) : list string :=
  match fuel with
  | 0 => arr
  | S fuel' =>
      if (Z.of_nat i <? Z.of_nat (length raw) - 1)%Z
      then headerLoop fuel' (i + 2) raw
             (arr ++ [at_index raw i +:+ ": " +:+ at_index raw (i + 1)])
      else arr
  end.

(** The prologue [handleUpgrade] writes on the pooled socket. *)
Definition prologue (req : IncomingMessage) : string :=
  let arr := [method req +:+ " " +:+ url req +:+ " HTTP/" +:+ httpVersion req] in
  let arr := headerLoop (length (rawHeaders req)) 0 (rawHeaders req) arr in
  let arr := arr ++ [EmptyString] in
  let arr := arr ++ [EmptyString] in
  join CRLF arr.

(** The external socket of an upgrade, as the callback observes it. *)
Record ExternalSocket := mkExt { readable : bool; writable : bool }.

(** The callback [handleUpgrade] gives to [agent.createConnection]. *)
Definition upgradeCallback (req : IncomingMessage) (socket : ExternalSocket)
  (err : option TunnelAgent.error) (conn : option TunnelAgent.socket)
  : list action :=
  match err, conn with
  | Some _, _ => [SocketEnd]
  | None, None => [SocketEnd]
  | None, Some c =>
      if negb (readable socket) || negb (writable socket)
      then [ConnDestroy c; SocketEnd]
      else [Pump (Conn c) ExtSocket; Pump ExtSocket (Conn c);
            ConnWrite c (prologue req)]
  end.

(** [handleUpgrade(req, socket)]: asks the agent for a connection; [cb] names
    the callback above. *)
Definition handleUpgrade (cb : TunnelAgent.callback) (c : t)
  : t * list action :=
  let '(ag, acts) := TunnelAgent.createConnection cb (agent c) in
  (set_agent ag c, map AgentDoes acts).

(** The prologue in the words of the specification: the request line, then
    every raw header name and value pair in order, each line ended by CRLF,
    then a blank line. *)
Fixpoint pairs (raw : list string) : list (string * string) :=
  match raw with
  | name :: value :: rest => (name, value) :: pairs rest
  | _ => []
  end.

Definition header_line (p : string * string) : string :=
  p.1 +:+ ": " +:+ p.2 +:+ CRLF.

Definition prologue_spec (req : IncomingMessage) : string :=
  method req +:+ " " +:+ url req +:+ " HTTP/" +:+ httpVersion req +:+ CRLF
  +:+ foldr String.append EmptyString (map header_line (pairs (rawHeaders req)))
  +:+ CRLF.

(** The Client's listeners on its agent, by event: the constructor
    subscribes to ['online'] and ['offline'] and has no listener on
    ['end']. *)
Definition onAgentEmit (e : TunnelAgent.agent_event) (c : t)
  : t * list action :=
  match e with
  | TunnelAgent.Online => onAgentOnline c
  | TunnelAgent.Offline => onAgentOffline c
  | TunnelAgent.End => (c, [])
  end.

(** The calls of one agent handler, in order, each [emit] followed by what
    the Client's listener does. *)
Fixpoint dispatch (acts : list TunnelAgent.action) (c : t)
  : t * list action :=
  match acts with
  | [] => (c, [])
  | x :: rest =>
      let '(c1, o1) := match x with
                       | TunnelAgent.Emit e => onAgentEmit e c
                       | _ => (c, [])
                       end in
      let '(c2, o2) := dispatch rest c1 in
      (c2, AgentDoes x :: o1 ++ o2)
  end.

(** An event of the Client's agent, seen from the Client. *)
Definition agentEvent (e : TunnelAgent.event) (c : t) : t * list action :=
  let '(ag, acts) := TunnelAgent.step (agent c) e in
  dispatch acts (set_agent ag c).

(** The Client after a sequence of events of its agent. *)
Fixpoint agentRun (c : t) (evs : list TunnelAgent.event) : t :=
  match evs with
  | [] => c
  | e :: evs' => agentRun (agentEvent e c).1 evs'
  end.

(** [handleUpgrade(req, socket)] to the end of the call: when the agent
    completes the callback inside [createConnection], the callback's own
    calls follow. *)
Definition upgrade (req : IncomingMessage) (socket : ExternalSocket)
  (cb : TunnelAgent.callback) (c : t) : t * list action :=
  let '(c', acts) := handleUpgrade cb c in
  (c',
   flat_map (fun x =>
               x :: match x with
                    | AgentDoes (TunnelAgent.Call cb' err conn) =>
                        if decide (cb' = cb)
                        then upgradeCallback req socket err conn
                        else []
                    | _ => []
                    end) acts).

End Client.

(** ** The client manager *)

Module ClientManager.

Record ClientInfo := mkInfo {
  info_id : string;
  port : Z;
  max_conn_count : Q
}.

(** What [newClient] can throw: what [agent.listen()] threw, or the reason
    its promise was rejected with. *)
Inductive error :=
| AgentError (e : TunnelAgent.error)
| ListenRejected.

(** The manager and the objects it refers to.  Client objects live in a
    store and the registry holds their addresses: a Client taken out of the
    registry is still the object its own timer and listeners act on. *)
Record t := mk {
  opt_max_tcp_sockets : option Q;   (* this.opt.max_tcp_sockets *)
  clients : gmap string nat;        (* this.clients *)
  tunnels : Z;                      (* this.stats.tunnels *)
  store : gmap nat Client.t;        (* the Client objects, by address *)
  hriCalls : nat                    (* calls of hri.random() so far *)
}.

Definition set_clients (c : gmap string nat) (m : t) : t :=
  mk (opt_max_tcp_sockets m) c (tunnels m) (store m) (hriCalls m).
Definition set_tunnels (n : Z) (m : t) : t :=
  mk (opt_max_tcp_sockets m) (clients m) n (store m) (hriCalls m).
Definition set_store (h : gmap nat Client.t) (m : t) : t :=
  mk (opt_max_tcp_sockets m) (clients m) (tunnels m) h (hriCalls m).
Definition set_hriCalls (n : nat) (m : t) : t :=
  mk (opt_max_tcp_sockets m) (clients m) (tunnels m) (store m) n.

(** [constructor(opt)] *)
Definition new (max_tcp_sockets : option Q) : t :=
  mk max_tcp_sockets ∅ 0%Z ∅ 0.

(** [this.opt.max_tcp_sockets || 10] *)
Definition or10 (o : option Q) : Q :=
  match o with
  | None => 10%Q
  | Some n => if Qeq_bool n 0 then 10%Q else n
  end.

(** [hasClient(id)] *)
Definition hasClient (id : string) (m : t) : bool :=
  bool_decide (is_Some (clients m !! id)).

(** [getClient(id)] *)
Definition getClient (id : string) (m : t) : option Client.t :=
  clients m !! id ≫= fun addr => store m !! addr.

(** [client.close()] on the Client at [addr], with the manager's listeners
    run by [emit('close')]; [rm] is [removeClient]. *)
Definition closeClientWith
  (rm : string -> t -> option (t * list Client.action))
  (addr : nat) (m : t) : option (t * list Client.action) :=
  match store m !! addr with
  | None => Some (m, [])
  | Some c =>
      let '(c', acts, ls) := Client.close c in
      let m1 := set_store (<[addr := c']> (store m)) m in
      foldl (fun acc l =>
               match acc with
               | None => None
               | Some (m', o) =>
                   match rm l m' with
                   | None => None
                   | Some (m'', o') => Some (m'', o ++ o')
                   end
               end)
            (Some (m1, acts)) ls
  end.

(** [removeClient(id)].  It calls [client.close()], whose ['close'] event
    can call [removeClient] again; [fuel] bounds that nesting and [None]
    means the bound was reached. *)
Fixpoint removeClient (fuel : nat) (id : string) (m : t)
  : option (t * list Client.action) :=
  match fuel with
  | 0 => None
  | S fuel' =>
      match clients m !! id with
      | None => Some (m, [])
      | Some addr =>
          let m1 := set_tunnels (tunnels m - 1)%Z m in
          let m2 := set_clients (delete id (clients m1)) m1 in
          closeClientWith (removeClient fuel') addr m2
      end
  end.

(** [close()] of the Client at [addr], called by its grace timer or by its
    agent's ['error'] listener. *)
Definition clientCloses (fuel : nat) (addr : nat) (m : t)
  : option (t * list Client.action) :=
  closeClientWith (removeClient fuel) addr m.

(** What [newClient] keeps true of the registry and the store: an entry
    under [k] points to a live Client whose id is [k], and the only
    ['close'] listener a Client carries is the one capturing its own id. *)
Definition wf (m : t) : Prop :=
  (forall k addr, clients m !! k = Some addr ->
     exists c, store m !! addr = Some c /\ Client.id c = k)
  /\ (forall addr c l, store m !! addr = Some c ->
       l ∈ Client.closeOnce c -> l = Client.id c).

(** A [newClient] call suspended at [await agent.listen()]: the variables
    its continuation uses. *)
Record pending := mkPending {
  p_id : string;
  p_addr : nat;
  p_maxSockets : Q
}.

Section Generator.

(** [hri n] is what the [n]-th call of [hri.random()] returns. *)
Variable hri : nat -> string.

(** The id [newClient(id)] settles on in its first statement. *)
Definition chosen (id : string) (m : t) : string :=
  if hasClient id m then hri (hriCalls m) else id.

(** [newClient(id)] up to the [try]: choose the id, build agent and client,
    register the client and the one-shot ['close'] listener. *)
Definition newClient_register (id : string) (m : t) : t * pending :=
  let '(id, m0) :=
    if hasClient id m
    then (hri (hriCalls m), set_hriCalls (S (hriCalls m)) m)
    else (id, m) in
  let maxSockets := or10 (opt_max_tcp_sockets m0) in
  let agent := TunnelAgent.new
                 (TunnelAgent.mkOptions (Some id) (Some maxSockets)) in
  let client := (Client.new id agent).1 in
  let addr := fresh (dom (store m0)) in
  let m1 := set_store (<[addr := client]> (store m0)) m0 in
  let m2 := set_clients (<[id := addr]> (clients m1)) m1 in
  let m3 := set_store (<[addr := Client.onceClose id client]> (store m2)) m2 in
  (m3, mkPending id addr maxSockets).

(** The call [agent.listen()] inside the [try], before the [await]
    suspends. *)
Definition newClient_listen (p : pending) (m : t)
  : t * (TunnelAgent.error + unit) :=
  match store m !! p_addr p with
  | None => (m, inr tt)
  | Some c =>
      match TunnelAgent.listen (Client.agent c) with
      | inl err => (m, inl err)
      | inr ag =>
          (set_store (<[p_addr p := Client.set_agent ag c]> (store m)) m,
           inr tt)
      end
  end.

(** The continuation when the promise resolves with [port]. *)
Definition newClient_return (p : pending) (port : Z) (m : t)
  : t * ClientInfo :=
  (set_tunnels (tunnels m + 1)%Z m, mkInfo (p_id p) port (p_maxSockets p)).

(** The [catch] block. *)
Definition newClient_catch (fuel : nat) (p : pending) (err : error) (m : t)
  : option (t * error) :=
  match removeClient fuel (p_id p) m with
  | None => None
  | Some (m', _) => Some (m', err)
  end.

(** How the promise of [agent.listen()] settles.  [Rejects] is what the
    [catch] block of [newClient] is written for; the promise [listen()]
    builds has no reject path of its own. *)
Inductive listen_outcome := Resolves (port : Z) | Rejects.

(** A whole [newClient] call during whose [await] nothing else runs. *)
Definition newClient (fuel : nat) (id : string) (o : listen_outcome) (m : t)
  : option (t * (error + ClientInfo)) :=
  let '(m1, p) := newClient_register id m in
  match newClient_listen p m1 with
  | (m2, inl err) =>
      match newClient_catch fuel p (AgentError err) m2 with
      | None => None
      | Some (m3, e) => Some (m3, inl e)
      end
  | (m2, inr _) =>
      match o with
      | Resolves port =>
          let '(m3, info) := newClient_return p port m2 in
          Some (m3, inr info)
      | Rejects =>
          match newClient_catch fuel p ListenRejected m2 with
          | None => None
          | Some (m3, e) => Some (m3, inl e)
          end
      end
  end.

End Generator.

End ClientManager.
(** ** Properties of the tunnel agent *)

Module TunnelAgentProps.
Import TunnelAgent.

(** Case analysis on one handler run: split the event and every test the
    handler makes. *)
Ltac handler_cases :=
  repeat match goal with
  | |- context [match ?e with Listen => _ | _ => _ end] => destruct e
  | |- context [if started ?a then _ else _] => destruct (started a) eqn:?
  | |- context [if closed ?a then _ else _] => destruct (closed a) eqn:?
  | |- context [if decide ?P then _ else _] => destruct (decide P)
  | |- context [if numGe ?n ?c then _ else _] => destruct (numGe n c) eqn:?
  | |- context [if (?x <=? ?y)%Z then _ else _] =>
      destruct (Z.leb_spec x y)
  | |- context [if (?x =? ?y)%Z then _ else _] =>
      destruct (Z.eqb_spec x y)
  | |- context [match waitingCreateConn ?a with _ => _ end] =>
      destruct (waitingCreateConn a) eqn:?
  | |- context [match availableSockets ?a with _ => _ end] =>
      destruct (availableSockets a) eqn:?
  | |- context [match timers ?a with _ => _ end] =>
      destruct (timers a) as [|[? ?] ?] eqn:?
  end.

Ltac unfold_handlers :=
  unfold step, listen, _onConnection, onSocketClose, onSocketError, _onClose,
    createConnection, destroy; simpl.

Lemma inv_new (o : TunnelAgentOptions) : inv (new o).
Proof.
  split; simpl.
  - done.
  - intros s Hs. set_solver.
Qed.

Lemma size_add_listener (s : socket) (g : gset socket) :
  s ∉ g -> size ({[s]} ∪ g) = S (size g).
Proof.
  intros Hs. rewrite size_union by set_solver. by rewrite size_singleton.
Qed.

Lemma size_remove_listener (s : socket) (g : gset socket) :
  s ∈ g -> S (size (g ∖ {[s]})) = size g.
Proof.
  intros Hs.
  assert (Hsub : ({[s]} : gset socket) ⊆ g) by set_solver.
  pose proof (size_difference g {[s]} Hsub) as Hd.
  pose proof (subseteq_size _ _ Hsub) as Hle.
  rewrite size_singleton in Hd, Hle. lia.
Qed.

Lemma step_inv (a : t) (e : event) : inv a -> inv (step a e).1.
Proof.
  intros [Hc Hl]. unfold_handlers.
  destruct e; simpl; handler_cases; simpl; try (split; simpl; done).
  all: split; simpl.
  all: try match goal with
    | |- context [size ({[?s]} ∪ ?g)] =>
        rewrite (size_add_listener s g)
          by (intros Hin; specialize (Hl _ Hin); lia); lia
    | Hin : ?s ∈ closeListeners _ |- context [size (?g ∖ {[?s]})] =>
        pose proof (size_remove_listener s g Hin); lia
    end.
  all: try done.
  all: intros s' Hs'.
  all: match type of Hs' with
    | _ ∈ {[_]} ∪ _ =>
        apply elem_of_union in Hs' as [Hs'|Hs'];
        [apply elem_of_singleton in Hs'; lia | specialize (Hl _ Hs'); lia]
    | _ ∈ _ ∖ _ => apply elem_of_difference in Hs' as [Hs' _]; by apply Hl
    | _ => specialize (Hl _ Hs'); lia
    end.
Qed.

Lemma exec_inv (a : t) (evs : list event) : inv a -> inv (exec a evs).
Proof.
  revert a. induction evs as [|e evs IH]; intros a Ha; simpl; [done|].
  apply IH, step_inv, Ha.
Qed.

Lemma step_maxTcpSockets (a : t) (e : event) :
  maxTcpSockets (step a e).1 = maxTcpSockets a.
Proof. unfold_handlers. destruct e; simpl; handler_cases; done. Qed.

Lemma exec_maxTcpSockets (a : t) (evs : list event) :
  maxTcpSockets (exec a evs) = maxTcpSockets a.
Proof.
  revert a. induction evs as [|e evs IH]; intros a; simpl; [done|].
  by rewrite IH, step_maxTcpSockets.
Qed.

(** The test of [_onConnection], on integers: the count has reached the cap
    when it has reached the cap rounded up. *)
Lemma numGe_ceiling (n : Z) (cap : Q) :
  numGe n cap = (Qceiling cap <=? n)%Z.
Proof.
  unfold numGe. apply eq_true_iff_eq.
  rewrite Qle_bool_iff, Z.leb_le. split.
  - intros H. apply Qceiling_resp_le in H. by rewrite Qceiling_Z in H.
  - intros H. apply (Qle_trans _ (inject_Z (Qceiling cap))).
    + apply Qle_ceiling.
    + by rewrite <- Zle_Qle.
Qed.



Lemma exec_app (a : t) (evs1 evs2 : list event) :
  exec a (evs1 ++ evs2) = exec (exec a evs1) evs2.
Proof.
  revert a. induction evs1 as [|e evs1 IH]; intros a; simpl; [done|].
  apply IH.
Qed.

Lemma trace_app (a : t) (evs1 evs2 : list event) :
  trace a (evs1 ++ evs2) = trace a evs1 ++ trace (exec a evs1) evs2.
Proof.
  revert a. induction evs1 as [|e evs1 IH]; intros a; simpl; [done|].
  by rewrite IH, app_assoc.
Qed.

Lemma step_accepted_mono (a : t) (e : event) :
  accepted a <= accepted (step a e).1.
Proof. unfold_handlers. destruct e; simpl; handler_cases; simpl; lia. Qed.

(** A socket the listener has already produced and that carries no ['close']
    listener never carries one again. *)
Lemma step_listener_gone (a : t) (e : event) (s : socket) :
  s < accepted a -> s ∉ closeListeners a ->
  s ∉ closeListeners (step a e).1.
Proof.
  intros Hlt Hs. unfold_handlers.
  destruct e; simpl; handler_cases; simpl; try done.
  all: try (rewrite elem_of_union, elem_of_singleton; intros [?|?]; [lia|done]).
  all: rewrite elem_of_difference; by intros [? _].
Qed.

Lemma exec_listener_gone (a : t) (evs : list event) (s : socket) :
  s < accepted a -> s ∉ closeListeners a ->
  s ∉ closeListeners (exec a evs).
Proof.
  revert a. induction evs as [|e evs IH]; intros a Hlt Hs; simpl; [done|].
  apply IH.
  - pose proof (step_accepted_mono a e). lia.
  - by apply step_listener_gone.
Qed.


Lemma close_with_listener (a : t) (s : socket) :
  s ∈ closeListeners a ->
  connectedSockets (step a (SocketClose s)).1 = (connectedSockets a - 1)%Z
  /\ (s ∉ closeListeners (step a (SocketClose s)).1)
  /\ accepted (step a (SocketClose s)).1 = accepted a.
Proof.
  intros Hs. unfold_handlers. handler_cases; simpl; try done.
  all: repeat split; try done.
  all: rewrite elem_of_difference, elem_of_singleton; by intros [_ ?].
Qed.


(** C10: [createConnection] on an agent whose [closed] flag is set completes
    the callback with the error [closed] inside the call itself, and the
    agent is left exactly as it was: the pool and the wait queue are
    untouched and no socket is handed out. *)
Theorem createConnection_when_closed (a : t) (cb : callback) :
  closed a = true ->
  createConnection cb a = (a, [Call cb (Some ErrClosed) None])
  /\ availableSockets (createConnection cb a).1 = availableSockets a
  /\ waitingCreateConn (createConnection cb a).1 = waitingCreateConn a
  /\ (forall s, Call cb None (Some s) ∉ (createConnection cb a).2).
Proof.
  intros Hc. unfold createConnection. rewrite Hc. simpl.
  repeat split. intros s Hin. apply list_elem_of_singleton in Hin. discriminate.
Qed.

Lemma createConnection_when_closed_witness :
  let a := exec (new (mkOptions None None)) [Listen; Connection; ServerClosed] in
  closed a = true
  /\ availableSockets a = [0]
  /\ createConnection 7 a = (a, [Call 7 (Some ErrClosed) None]).
Proof.
  split; [reflexivity|]. split; [reflexivity|].
  apply (createConnection_when_closed
           (exec (new (mkOptions None None)) [Listen; Connection; ServerClosed])
           7).
  reflexivity.
Defined.




Lemma emits_flush (x : agent_event) (l : list callback) :
  x <> End ->
  emits x (map (fun conn => Call conn (Some ErrClosed) None) l ++ [Emit End])
  = 0.
Proof.
  intros Hx. unfold emits. induction l as [|c l IH]; simpl.
  - rewrite filter_cons. destruct (decide (Emit End = Emit x)) as [Heq|]; [|done].
    congruence.
  - rewrite filter_cons.
    by destruct (decide (Call c (Some ErrClosed) None = Emit x)).
Qed.

(** The two presence events of one handler run, for any state a run can
    reach. *)
Lemma step_edges (a : t) (e : event) :
  inv a ->
  emits Online (step a e).2 =
    (if bool_decide (connectedSockets a = 0
                     /\ connectedSockets (step a e).1 = 1)%Z
     then 1 else 0)
  /\ emits Offline (step a e).2 =
    (if bool_decide (connectedSockets a = 1
                     /\ connectedSockets (step a e).1 = 0)%Z
     then 1 else 0).
Proof.
  intros [Hc Hl]. unfold_handlers.
  destruct e; simpl; handler_cases; simpl.
  all: try rewrite !emits_flush by done.
  all: try match goal with
    | Hin : ?s ∈ closeListeners _ |- _ =>
        pose proof (size_remove_listener s _ Hin)
    end.
  all: split; case_bool_decide; try reflexivity; simpl in *; lia.
Qed.

(** C3, as the code has it: along every run, a handler emits ['online']
    exactly when it takes [connectedSockets] from 0 to 1 and ['offline']
    exactly when it takes it from 1 to 0, once each time and at no other
    point; the [closed] flag plays no part in either. *)
Theorem online_offline_edges (o : TunnelAgentOptions) (evs : list event)
  (e : event) :
  let a := exec (new o) evs in
  emits Online (step a e).2 =
    (if bool_decide (connectedSockets a = 0
                     /\ connectedSockets (step a e).1 = 1)%Z
     then 1 else 0)
  /\ emits Offline (step a e).2 =
    (if bool_decide (connectedSockets a = 1
                     /\ connectedSockets (step a e).1 = 0)%Z
     then 1 else 0).
Proof. intros a. apply step_edges, exec_inv, inv_new. Qed.

(** C3 as stated fails: an agent with one live socket whose listener has
    closed still emits ['offline'] when that socket closes. *)
Lemma offline_emitted_when_closed :
  let a := exec (new (mkOptions None None)) [Listen; Connection; ServerClosed] in
  closed a = true
  /\ connectedSockets a = 1%Z
  /\ (step a (SocketClose 0)).2 = [Emit Offline]
  /\ connectedSockets (step a (SocketClose 0)).1 = 0%Z
  /\ emits Offline (step a (SocketClose 0)).2 = 1
  /\ ~ offline_only_while_open a (SocketClose 0).
Proof.
  repeat split; try (vm_compute; reflexivity).
  unfold offline_only_while_open. vm_compute. discriminate.
Qed.

Lemma step_closed_stays (a : t) (e : event) :
  closed a = true -> closed (step a e).1 = true.
Proof.
  intros Hc. unfold_handlers. destruct e; simpl; handler_cases; simpl; done.
Qed.

Lemma exec_closed_stays (a : t) (evs : list event) :
  closed a = true -> closed (exec a evs) = true.
Proof.
  revert a. induction evs as [|e evs IH]; intros a Ha; simpl; [done|].
  apply IH, step_closed_stays, Ha.
Qed.

(** What does close an agent: [destroy()] asks the listener to close and
    calls the base class, and changes no field of the agent.  When the
    listener's ['close'] event then runs [_onClose], the flag [closed] is set,
    every queued waiter is completed with the error [closed], in queue order,
    and the queue is emptied; from then on every [createConnection] is
    completed with [closed] and changes nothing. *)
Lemma destroy_then_listener_close (a : t) :
  started a = true ->
  step a Destroy = (a, [ServerClose; SuperDestroy])
  /\ (step a ServerClosed).2 =
       map (fun w => Call w (Some ErrClosed) None) (waitingCreateConn a)
       ++ [Emit End]
  /\ closed (step a ServerClosed).1 = true
  /\ waitingCreateConn (step a ServerClosed).1 = []
  /\ availableSockets (step a ServerClosed).1 = availableSockets a
  /\ (forall (evs : list event) (cb : callback),
        let b := exec (step a ServerClosed).1 evs in
        step b (CreateConnection cb) = (b, [Call cb (Some ErrClosed) None])).
Proof.
  intros Hst. simpl. rewrite Hst. simpl. repeat split.
  intros evs cb. cbv zeta. unfold createConnection.
  by rewrite exec_closed_stays.
Qed.

Lemma destroy_then_listener_close_witness :
  let a := exec (new (mkOptions None None))
             [Listen; CreateConnection 3; CreateConnection 4] in
  started a = true
  /\ (step a ServerClosed).2 =
       [Call 3 (Some ErrClosed) None; Call 4 (Some ErrClosed) None; Emit End]
  /\ step (exec (step a ServerClosed).1 [Connection]) (CreateConnection 5) =
       (exec (step a ServerClosed).1 [Connection],
        [Call 5 (Some ErrClosed) None]).
Proof.
  pose proof (destroy_then_listener_close
                (exec (new (mkOptions None None))
                   [Listen; CreateConnection 3; CreateConnection 4])
                eq_refl) as (_ & Hflush & _ & _ & _ & Hlater).
  split; [reflexivity|]. split; [exact Hflush|].
  exact (Hlater [Connection] 5).
Defined.

(** C4 fails on the code.  [destroy()] calls [server.close()] and the base
    class and nothing else: it destroys no socket of the pool and changes no
    field, the flag [closed] included.  So on an agent with a socket in the
    pool, as after one connection, the socket is still pooled after
    [destroy()] and a [createConnection] made then is completed with that
    socket instead of the error [closed]. *)
Theorem destroy_leaves_pool (a : t) (cb : callback) :
  step a Destroy = (a, [ServerClose; SuperDestroy])
  /\ (forall s, SocketDestroy s ∉ (step a Destroy).2)
  /\ (forall s rest,
        closed a = false -> availableSockets a = s :: rest ->
        step (step a Destroy).1 (CreateConnection cb) =
          (set_availableSockets rest a, [Call cb None (Some s)]))
  /\ (let a1 := exec (new (mkOptions None None)) [Listen; Connection] in
      closed a1 = false
      /\ availableSockets a1 = [0]
      /\ availableSockets (step a1 Destroy).1 = [0]
      /\ (step (step a1 Destroy).1 (CreateConnection cb)).2 =
           [Call cb None (Some 0)]
      /\ ~ destroy_tears_down_pool a1
      /\ ~ destroy_then_rejects a1 cb).
Proof.
  split; [done|]. split; [|split].
  - intros s Hin. simpl in Hin.
    repeat (apply elem_of_cons in Hin as [Hin|Hin]; [discriminate|]).
    by apply elem_of_nil in Hin.
  - intros s rest Hc Hav. simpl. unfold createConnection. by rewrite Hc, Hav.
  - cbv zeta. repeat split.
    + intros Hall. specialize (Hall 0 ltac:(by left)). simpl in Hall.
      repeat (apply elem_of_cons in Hall as [Hall|Hall]; [discriminate|]).
      by apply elem_of_nil in Hall.
    + unfold destroy_then_rejects. simpl. discriminate.
Qed.











End TunnelAgentProps.
(** ** Properties of the client *)

Module ClientProps.
Import Client.

Lemma close_state (c : t) :
  (close c).1.1 = mk (agent c) (id c) false [].
Proof. reflexivity. Qed.







(** The only status [handleRequest] ever writes on the external response
    is the upstream's own (or 500 when it has none). *)
Lemma exchange_run_writeHead (evs : list upstream_event) (x : exchange)
  (status : Z) (h : headers) :
  WriteHead status h ∈ (exchange_run x evs).2 ->
  exists r, UpstreamResponse r ∈ evs
            /\ status = statusOr500 (statusCode r) /\ h = res_headers r.
Proof.
  revert x. induction evs as [|e evs IH]; intros x Hin; simpl in Hin.
  - by apply elem_of_nil in Hin.
  - destruct (exchange_step x e) as [x1 o1] eqn:Hstep.
    destruct (exchange_run x1 evs) as [x2 o2] eqn:Hrun. simpl in Hin.
    apply elem_of_app in Hin as [Hin|Hin].
    + destruct e as [r|]; simpl in Hstep; injection Hstep as <- <-.
      * apply elem_of_cons in Hin as [Hin|Hin].
        -- injection Hin as -> ->. exists r. split; [left|done].
        -- apply list_elem_of_singleton in Hin. discriminate.
      * by apply elem_of_nil in Hin.
    + destruct (IH x1) as (r & Hr & Hs); [by rewrite Hrun|].
      exists r. split; [by right|done].
Qed.

(** C1 fails on the code.  When the upstream request fails before any
    response, the listener of [clientReq]'s ['error'] event does nothing: the
    external response gets no status line at all, its headers stay unsent,
    and the calls of the whole exchange are those [handleRequest] made before
    it returned.  More generally a 502 reaches the external caller only when
    the upstream itself answered 502. *)
Theorem upstream_error_unanswered (req : IncomingMessage) :
  forward req [UpstreamError] =
    (mkExchange false,
     [HttpRequest (url req) (method req) (req_headers req);
      Pump Req ClientReq])
  /\ (forall status h, WriteHead status h ∉ (forward req [UpstreamError]).2)
  /\ (forall evs h,
        WriteHead 502 h ∈ (forward req evs).2 ->
        exists r, UpstreamResponse r ∈ evs /\ statusCode r = Some 502%Z).
Proof.
  split; [reflexivity|]. split.
  - intros status h Hin. simpl in Hin.
    repeat (apply elem_of_cons in Hin as [Hin|Hin]; [discriminate|]).
    by apply elem_of_nil in Hin.
  - intros evs h Hin. unfold forward in Hin.
    destruct (exchange_run (mkExchange false) evs) as [x o] eqn:Hrun.
    simpl in Hin.
    repeat (apply elem_of_cons in Hin as [Hin|Hin]; [discriminate|]).
    destruct (exchange_run_writeHead evs (mkExchange false) 502%Z h)
      as (r & Hr & Hs & _); [by rewrite Hrun|].
    exists r. split; [done|].
    unfold statusOr500 in Hs. destruct (statusCode r) as [n|]; [|done].
    destruct (Z.eqb_spec n 0); [done|]. by subst.
Qed.

Lemma string_app_assoc (s1 s2 s3 : string) :
  (s1 +:+ s2) +:+ s3 = s1 +:+ s2 +:+ s3.
Proof.
  induction s1 as [|c s1 IH]; [done|].
  change (String c ((s1 +:+ s2) +:+ s3) = String c (s1 +:+ s2 +:+ s3)).
  by rewrite IH.
Qed.

Lemma string_app_nil_r (s : string) : s +:+ EmptyString = s.
Proof.
  induction s as [|c s IH]; [done|].
  change (String c (s +:+ EmptyString) = String c s). by rewrite IH.
Qed.

Lemma drop_two (raw : list string) (i : nat) :
  i + 1 < length raw ->
  drop i raw = at_index raw i :: at_index raw (i + 1) :: drop (i + 2) raw.
Proof.
  intros Hlt. unfold at_index.
  destruct (lookup_lt_is_Some_2 raw i) as [x Hx]; [lia|].
  destruct (lookup_lt_is_Some_2 raw (i + 1)) as [y Hy]; [lia|].
  rewrite Hx, Hy. rewrite (drop_S _ _ _ Hx).
  replace (S i) with (i + 1) by lia. rewrite (drop_S _ _ _ Hy).
  by replace (S (i + 1)) with (i + 2) by lia.
Qed.

Lemma pairs_short (l : list string) : length l <= 1 -> pairs l = [].
Proof. destruct l as [|x [|y l]]; simpl; [done..|lia]. Qed.

(** The index loop visits the pairs of the raw header list in order. *)
Lemma headerLoop_pairs (raw : list string) (fuel i : nat) (arr : list string) :
  length raw - i <= 2 * fuel ->
  headerLoop fuel i raw arr =
    arr ++ map (fun p => p.1 +:+ ": " +:+ p.2) (pairs (drop i raw)).
Proof.
  revert i arr. induction fuel as [|fuel IH]; intros i arr Hf; simpl.
  - rewrite drop_ge by lia. simpl. by rewrite app_nil_r.
  - destruct (Z.ltb_spec (Z.of_nat i) (Z.of_nat (length raw) - 1)) as [Hlt|Hge].
    + rewrite IH by lia. rewrite (drop_two raw i) by lia. simpl.
      by rewrite <- app_assoc.
    + rewrite pairs_short; [by rewrite app_nil_r|].
      rewrite length_drop. lia.
Qed.

Lemma join_blank_line (sep : string) (l : list string) :
  join sep (l ++ [EmptyString; EmptyString]) =
    foldr String.append EmptyString (map (fun x => x +:+ sep) l) +:+ sep.
Proof.
  induction l as [|x l IH].
  - simpl. by rewrite string_app_nil_r.
  - change ((x :: l) ++ [EmptyString; EmptyString])
      with (x :: (l ++ [EmptyString; EmptyString])).
    assert (Hj : join sep (x :: (l ++ [EmptyString; EmptyString])) =
                 x +:+ sep +:+ join sep (l ++ [EmptyString; EmptyString]))
      by (by destruct l).
    rewrite Hj, IH. simpl. by rewrite !string_app_assoc.
Qed.

Lemma prologue_refines (req : IncomingMessage) :
  prologue req = prologue_spec req.
Proof.
  unfold prologue, prologue_spec.
  rewrite headerLoop_pairs by lia. rewrite drop_0.
  rewrite <- app_assoc. simpl ([EmptyString] ++ [EmptyString]).
  change ([method req +:+ " " +:+ url req +:+ " HTTP/" +:+ httpVersion req] ++
          map (fun p => p.1 +:+ ": " +:+ p.2) (pairs (rawHeaders req)))
    with ((method req +:+ " " +:+ url req +:+ " HTTP/" +:+ httpVersion req) ::
          map (fun p => p.1 +:+ ": " +:+ p.2) (pairs (rawHeaders req))).
  rewrite join_blank_line. simpl.
  rewrite !string_app_assoc. do 6 f_equal.
  induction (pairs (rawHeaders req)) as [|p l IH]; simpl; [done|].
  unfold header_line at 1. rewrite !string_app_assoc. by rewrite IH.
Qed.

(** C9: when the agent hands [handleUpgrade]'s callback a pooled socket and
    the external socket is still readable and writable, the callback wires
    the pooled socket to the external one, then the external one to the
    pooled one, and only then writes the prologue on the pooled socket; the
    prologue is the request line ["METHOD URL HTTP/VERSION"] and CRLF, then
    one line ["name: value"] and CRLF for every raw header pair, in the
    order and the casing of [rawHeaders], then a last CRLF. *)
Theorem upgrade_prologue (req : IncomingMessage) (socket : ExternalSocket)
  (conn : TunnelAgent.socket) :
  readable socket = true -> writable socket = true ->
  upgradeCallback req socket None (Some conn) =
    [Pump (Conn conn) ExtSocket; Pump ExtSocket (Conn conn);
     ConnWrite conn (prologue_spec req)].
Proof.
  intros Hr Hw. unfold upgradeCallback. rewrite Hr, Hw. simpl.
  by rewrite prologue_refines.
Qed.

Lemma upgrade_prologue_witness :
  let req := mkReq "/chat" "GET" "1.1" []
               ["Host"; "alpha.example"; "UPGRADE"; "websocket"] in
  readable (mkExt true true) = true
  /\ writable (mkExt true true) = true
  /\ upgradeCallback req (mkExt true true) None (Some 4) =
       [Pump (Conn 4) ExtSocket; Pump ExtSocket (Conn 4);
        ConnWrite 4
          ("GET /chat HTTP/1.1" +:+ CRLF +:+ "Host: alpha.example" +:+ CRLF
           +:+ "UPGRADE: websocket" +:+ CRLF +:+ CRLF)].
Proof.
  split; [reflexivity|]. split; [reflexivity|].
  exact (upgrade_prologue
           (mkReq "/chat" "GET" "1.1" []
              ["Host"; "alpha.example"; "UPGRADE"; "websocket"])
           (mkExt true true) 4 eq_refl eq_refl).
Defined.

End ClientProps.
(** ** Properties of the client manager *)

Module ClientManagerProps.
Import ClientManager.

Lemma hasClient_false (id : string) (m : t) :
  hasClient id m = false <-> clients m !! id = None.
Proof.
  unfold hasClient. rewrite bool_decide_eq_false.
  rewrite <- eq_None_not_Some. done.
Qed.

Lemma hasClient_true (id : string) (m : t) :
  hasClient id m = true <-> is_Some (clients m !! id).
Proof. unfold hasClient. by rewrite bool_decide_eq_true. Qed.

Lemma fresh_address (m : t) : store m !! fresh (dom (store m)) = None.
Proof. apply not_elem_of_dom, is_fresh. Qed.

(** A [newClient] call whose [listen] resolves: what it leaves behind. *)
Lemma newClient_resolved (hri : nat -> string) (fuel : nat) (id : string)
  (port : Z) (m : t) :
  let addr := fresh (dom (store m)) in
  let cid := chosen hri id m in
  let maxSockets := or10 (opt_max_tcp_sockets m) in
  let ag := TunnelAgent.set_started true
              (TunnelAgent.new
                 (TunnelAgent.mkOptions (Some cid) (Some maxSockets))) in
  newClient hri fuel id (Resolves port) m =
    Some (mk (opt_max_tcp_sockets m)
             (<[cid := addr]> (clients m))
             (tunnels m + 1)%Z
             (<[addr := Client.mk ag cid true [cid]]> (store m))
             (if hasClient id m then S (hriCalls m) else hriCalls m),
          inr (mkInfo cid port maxSockets)).
Proof.
  unfold newClient, newClient_register, newClient_listen, chosen.
  destruct (hasClient id m); simpl.
  all: rewrite lookup_insert_eq; simpl.
  all: by rewrite !insert_insert_eq.
Qed.

(** *** [removeClient] returns

    The nesting of [removeClient] and [close()] is two deep at most: the
    entry is deleted before [close()] is called, so the call the ['close']
    listener makes finds nothing. *)

Lemma removeClient_miss (fuel : nat) (id : string) (m : t) :
  clients m !! id = None -> removeClient (S fuel) id m = Some (m, []).
Proof. intros H. simpl. by rewrite H. Qed.

Lemma listeners_find_nothing (fuel : nat) (id : string) (ls : list string)
  (m : t) (acts : list Client.action) :
  clients m !! id = None ->
  (forall l, l ∈ ls -> l = id) ->
  foldl (fun acc l =>
           match acc with
           | None => None
           | Some (m', o) =>
               match removeClient (S fuel) l m' with
               | None => None
               | Some (m'', o') => Some (m'', o ++ o')
               end
           end) (Some (m, acts)) ls = Some (m, acts).
Proof.
  intros Hm Hls. induction ls as [|l ls IH]; [done|].
  assert (l = id) as -> by (apply Hls; left).
  cbn [foldl]. rewrite (removeClient_miss fuel id m Hm), app_nil_r.
  apply IH. intros l' Hl'. apply Hls. by right.
Qed.

Lemma removeClient_hit (fuel : nat) (id : string) (m : t) (addr : nat)
  (c : Client.t) :
  wf m -> clients m !! id = Some addr -> store m !! addr = Some c ->
  removeClient (S (S fuel)) id m =
    Some (mk (opt_max_tcp_sockets m) (delete id (clients m))
             (tunnels m - 1)%Z
             (<[addr := (Client.close c).1.1]> (store m)) (hriCalls m),
          (Client.close c).1.2).
Proof.
  intros [Hreg Hls] Hid Hc.
  destruct (Hreg _ _ Hid) as (c' & Hc' & Hidc).
  assert (c' = c) by congruence. subst c'.
  change (removeClient (S (S fuel)) id m) with
    (match clients m !! id with
     | None => Some (m, [])
     | Some addr =>
         closeClientWith (removeClient (S fuel)) addr
           (set_clients (delete id (clients (set_tunnels (tunnels m - 1)%Z m)))
              (set_tunnels (tunnels m - 1)%Z m))
     end).
  rewrite Hid. unfold closeClientWith. simpl store. rewrite Hc.
  destruct (Client.close c) as [[c1 acts] ls] eqn:Hclose.
  apply (listeners_find_nothing fuel id).
  - simpl. apply lookup_delete_eq.
  - intros l Hl. rewrite <- Hidc. apply (Hls addr c l Hc).
    unfold Client.close in Hclose. simpl in Hclose. by injection Hclose as _ _ <-.
Qed.

(** With fuel for two nested calls [removeClient] always returns. *)
Lemma removeClient_returns (fuel : nat) (id : string) (m : t) :
  wf m -> is_Some (removeClient (S (S fuel)) id m).
Proof.
  intros Hwf. destruct (clients m !! id) as [addr|] eqn:Hid.
  - destruct (proj1 Hwf _ _ Hid) as (c & Hc & _).
    rewrite (removeClient_hit fuel id m addr c Hwf Hid Hc). by eexists.
  - rewrite removeClient_miss by done. by eexists.
Qed.

Lemma wf_new (o : option Q) : wf (new o).
Proof.
  split.
  - intros k addr H. simpl in H. by rewrite lookup_empty in H.
  - intros addr c l H. simpl in H. by rewrite lookup_empty in H.
Qed.

Lemma removeClient_wf (fuel : nat) (id : string) (m m' : t)
  (acts : list Client.action) :
  wf m -> removeClient (S (S fuel)) id m = Some (m', acts) -> wf m'.
Proof.
  intros Hwf Hrm. destruct (clients m !! id) as [addr|] eqn:Hid.
  - destruct (proj1 Hwf _ _ Hid) as (c & Hc & Hidc).
    rewrite (removeClient_hit fuel id m addr c Hwf Hid Hc) in Hrm.
    injection Hrm as <- _. destruct Hwf as [Hreg Hls]. split; simpl.
    + intros k a Hk. apply lookup_delete_Some in Hk as [Hne Hk].
      destruct (Hreg _ _ Hk) as (ck & Hck & Hidk).
      exists ck. split; [|done]. rewrite lookup_insert_ne; [done|].
      intros ->. congruence.
    + intros a c' l Hc' Hl. destruct (decide (addr = a)) as [->|Hne].
      * rewrite lookup_insert_eq in Hc'. injection Hc' as <-.
        simpl in Hl. by apply elem_of_nil in Hl.
      * rewrite lookup_insert_ne in Hc' by done. by apply (Hls a c' l).
  - rewrite removeClient_miss in Hrm by done. by injection Hrm as <- _.
Qed.

Lemma newClient_wf (hri : nat -> string) (fuel : nat) (id : string)
  (port : Z) (m m' : t) (info : ClientInfo) :
  wf m -> newClient hri fuel id (Resolves port) m = Some (m', inr info) ->
  wf m'.
Proof.
  intros [Hreg Hls] Hnew. rewrite newClient_resolved in Hnew.
  injection Hnew as <- _. split; simpl.
  - intros k a Hk. destruct (decide (chosen hri id m = k)) as [<-|Hne].
    + rewrite lookup_insert_eq in Hk. injection Hk as <-.
      rewrite lookup_insert_eq. by eexists.
    + rewrite lookup_insert_ne in Hk by done.
      destruct (Hreg _ _ Hk) as (ck & Hck & Hidk).
      exists ck. split; [|done]. rewrite lookup_insert_ne; [done|].
      intros Heq. rewrite <- Heq, fresh_address in Hck. discriminate.
  - intros a c l Hc Hl.
    destruct (decide (fresh (dom (store m)) = a)) as [<-|Hne].
    + rewrite lookup_insert_eq in Hc. injection Hc as <-. simpl in *.
      by apply list_elem_of_singleton in Hl.
    + rewrite lookup_insert_ne in Hc by done. by apply (Hls a c l).
Qed.

(** C8, as the code has it: a [newClient(id)] call whose [listen] resolves.
    If [id] is not in the registry, the new client is registered under [id],
    the call returns [id], and [hri.random()] is not called.  If [id] is in
    the registry, [hri.random()] is called exactly once, its result is not
    checked against the registry, the new client is registered under it and
    the call returns it.  The client that held [id] is still registered under
    it when the generated id is not [id], and is replaced by the new client
    when it is; its object is not modified in either case. *)
Theorem newClient_id (hri : nat -> string) (fuel : nat) (id : string)
  (port : Z) (m : t) :
  exists (m' : t) (info : ClientInfo) (addr : nat) (c : Client.t),
    newClient hri fuel id (Resolves port) m = Some (m', inr info)
    /\ store m !! addr = None
    /\ store m' = <[addr := c]> (store m)
    /\ Client.id c = info_id info
    /\ clients m' = <[info_id info := addr]> (clients m)
    /\ (clients m !! id = None ->
        info_id info = id /\ hriCalls m' = hriCalls m)
    /\ (forall old, clients m !! id = Some old ->
        info_id info = hri (hriCalls m)
        /\ hriCalls m' = S (hriCalls m)
        /\ (hri (hriCalls m) <> id -> clients m' !! id = Some old)
        /\ (hri (hriCalls m) = id -> clients m' !! id = Some addr)
        /\ (forall c_old, store m !! old = Some c_old ->
             store m' !! old = Some c_old /\ old <> addr)).
Proof.
  eexists _, _, (fresh (dom (store m))), _.
  split; [apply newClient_resolved|]. simpl.
  split; [apply fresh_address|]. split; [done|]. split; [done|].
  split; [done|]. unfold chosen. split.
  - intros Hnone. apply hasClient_false in Hnone. by rewrite Hnone.
  - intros old Hold.
    assert (Hhas : hasClient id m = true)
      by (apply hasClient_true; by rewrite Hold).
    rewrite Hhas. split; [done|]. split; [done|]. split; [|split].
    + intros Hne. by rewrite lookup_insert_ne.
    + intros ->. by rewrite lookup_insert_eq.
    + intros c_old Hc.
      assert (Hne : old <> fresh (dom (store m))).
      { intros ->. rewrite fresh_address in Hc. discriminate. }
      split; [|done]. by rewrite lookup_insert_ne.
Qed.

Lemma newClient_id_witness :
  let hri := fun _ : nat => "beta" in
  let m1 := mk None {["alpha" := 0]} 1%Z
              {[0 := Client.mk (TunnelAgent.new
                                  (TunnelAgent.mkOptions (Some "alpha") None))
                       "alpha" true ["alpha"]]} 0 in
  (exists m' info,
     clients (new None) !! "alpha" = None
     /\ newClient hri 3 "alpha" (Resolves 4000) (new None) =
          Some (m', inr info)
     /\ info_id info = "alpha")
  /\ (exists m' info,
       clients m1 !! "alpha" = Some 0
       /\ newClient hri 3 "alpha" (Resolves 4001) m1 = Some (m', inr info)
       /\ info_id info = "beta"
       /\ hriCalls m' = 1
       /\ clients m' !! "alpha" = Some 0).
Proof.
  split.
  - destruct (newClient_id (fun _ : nat => "beta") 3 "alpha" 4000 (new None))
      as (m' & info & addr & c & Hcall & _ & _ & _ & _ & Hfree & _).
    exists m', info.
    split; [reflexivity|]. split; [exact Hcall|].
    exact (proj1 (Hfree eq_refl)).
  - destruct (newClient_id (fun _ : nat => "beta") 3 "alpha" 4001
                (mk None {["alpha" := 0]} 1%Z
                   {[0 := Client.mk
                            (TunnelAgent.new
                               (TunnelAgent.mkOptions (Some "alpha") None))
                            "alpha" true ["alpha"]]} 0))
      as (m' & info & addr & c & Hcall & _ & _ & _ & _ & _ & Htaken).
    destruct (Htaken 0 eq_refl) as (Hid & Hcalls & Hkeep & _).
    exists m', info.
    split; [reflexivity|]. split; [exact Hcall|]. split; [exact Hid|].
    split; [exact Hcalls|]. apply Hkeep. discriminate.
Defined.

(** C8 as stated fails when [hri.random()] returns the requested id itself:
    the new client is registered under that id in place of the client that
    held it, which is left out of the registry. *)
Lemma newClient_displaces_holder :
  let hri := fun _ : nat => "alpha" in
  let m1 := mk None {["alpha" := 0]} 1%Z
              {[0 := Client.mk (TunnelAgent.new
                                  (TunnelAgent.mkOptions (Some "alpha") None))
                       "alpha" true ["alpha"]]} 0 in
  clients m1 !! "alpha" = Some 0
  /\ match newClient hri 3 "alpha" (Resolves 4001) m1 with
     | Some (m', inr info) =>
         info_id info = "alpha"
         /\ hriCalls m' = 1
         /\ clients m' !! "alpha" = Some 1
         /\ size (clients m') = 1
         /\ tunnels m' = 2%Z
     | _ => False
     end.
Proof. split; [reflexivity|]. vm_compute. repeat split. Qed.

(** C5 fails on the code.  [newClient] registers the client before the
    [await] and counts it only after, while [removeClient] always uncounts:
    a client that closes while [listen] is pending leaves [stats.tunnels] at
    -1 with an empty registry, and the [catch] block does the same when
    [listen] fails.  The count is also left above the size of the registry
    when the generated id is already taken. *)
Theorem tunnels_out_of_step (hri : nat -> string) :
  let m0 := new None in
  let m1 := (newClient_register hri "alpha" m0).1 in
  let p := (newClient_register hri "alpha" m0).2 in
  let m2 := (newClient_listen p m1).1 in
  (tunnels m2 = 0%Z /\ size (clients m2) = 1)
  /\ (exists m3 acts,
        clientCloses 3 (p_addr p) m2 = Some (m3, acts)
        /\ tunnels m3 = (-1)%Z /\ size (clients m3) = 0
        /\ tunnels (newClient_return p 4000 m3).1 = 0%Z
        /\ hasClient "alpha" (newClient_return p 4000 m3).1 = false)
  /\ (exists m3,
        newClient hri 3 "alpha" Rejects m0 = Some (m3, inl ListenRejected)
        /\ tunnels m3 = (-1)%Z /\ size (clients m3) = 0).
Proof.
  split; [by vm_compute|]. split.
  - eexists _, _. split; [by vm_compute|]. by vm_compute.
  - eexists. split; [by vm_compute|]. by vm_compute.
Qed.

(** The same count is left above the size of the registry when the id
    generated for a taken id is taken as well: the entry is overwritten. *)
Lemma tunnels_above_registry :
  let hri := fun _ : nat => "beta" in
  match
    newClient hri 3 "alpha" (Resolves 4000) (new None) ≫= fun r1 =>
    newClient hri 3 "beta" (Resolves 4001) r1.1 ≫= fun r2 =>
    newClient hri 3 "alpha" (Resolves 4002) r2.1
  with
  | Some (m3, inr i3) =>
      info_id i3 = "beta" /\ tunnels m3 = 3%Z /\ size (clients m3) = 2
  | _ => False
  end.
Proof. vm_compute. repeat split. Qed.

(** A Client reaped by its grace timer after a successful creation: its
    [close()] runs twice, once from the timer and once from [removeClient],
    which the ['close'] listener calls. *)
Lemma grace_reap_closes_twice :
  let hri := fun _ : nat => "beta" in
  match
    newClient hri 3 "alpha" (Resolves 4000) (new None) ≫= fun r1 =>
    clientCloses 3 0 r1.1
  with
  | Some (m2, acts) =>
      Client.closeEmissions acts = 2
      /\ tunnels m2 = 0%Z /\ size (clients m2) = 0
  | None => False
  end.
Proof. vm_compute. repeat split. Qed.

End ClientManagerProps.
(** ** Further properties of the tunnel agent *)

Module TunnelAgentExtra.
Import TunnelAgent TunnelAgentProps.

(** *** [listen] *)

Lemma step_started_stays (a : t) (e : event) :
  started a = true -> started (step a e).1 = true.
Proof.
  intros Hs. unfold_handlers. rewrite Hs.
  destruct e; simpl; handler_cases; simpl; done.
Qed.

Lemma exec_started_stays (a : t) (evs : list event) :
  started a = true -> started (exec a evs) = true.
Proof.
  revert a. induction evs as [|e evs IH]; intros a Ha; simpl; [done|].
  apply IH, step_started_stays, Ha.
Qed.

(** After a call of [listen()], whatever happens next, every further call
    throws ['already started'] and changes nothing: the listener's handlers
    are installed once. *)
Theorem listen_only_once (a : t) (evs : list event) :
  let b := exec (step a Listen).1 evs in
  started b = true
  /\ listen b = inl ErrAlreadyStarted
  /\ step b Listen = (b, []).
Proof.
  assert (Hs : started (step a Listen).1 = true).
  { simpl. unfold listen. by destruct (started a) eqn:?. }
  intros b. assert (Hb : started b = true) by by apply exec_started_stays.
  split; [done|]. simpl. unfold listen. by rewrite Hb.
Qed.

(** *** The wait queue of a closed agent *)

Lemma step_closed_queue (a : t) (e : event) :
  (closed a = true -> waitingCreateConn a = []) ->
  closed (step a e).1 = true -> waitingCreateConn (step a e).1 = [].
Proof.
  intros H. unfold_handlers.
  destruct e; simpl; handler_cases; simpl; intros Hc; try done;
    try (by apply H); try congruence.
  all: specialize (H Hc); congruence.
Qed.

Lemma exec_closed_queue (a : t) (evs : list event) :
  (closed a = true -> waitingCreateConn a = []) ->
  closed (exec a evs) = true -> waitingCreateConn (exec a evs) = [].
Proof.
  revert a. induction evs as [|e evs IH]; intros a Ha; simpl; [done|].
  apply IH, step_closed_queue, Ha.
Qed.

(** Once the listener has closed no callback is ever left waiting: in every
    state a run reaches with [closed] set, the wait queue is empty. *)
Theorem closed_agent_has_no_waiters (o : TunnelAgentOptions)
  (evs : list event) :
  closed (exec (new o) evs) = true ->
  waitingCreateConn (exec (new o) evs) = [].
Proof. apply exec_closed_queue. simpl. discriminate. Qed.

Lemma closed_agent_has_no_waiters_witness :
  let evs := [Listen; CreateConnection 3; ServerClosed; CreateConnection 4;
              Connection] in
  closed (exec (new (mkOptions None None)) evs) = true
  /\ waitingCreateConn (exec (new (mkOptions None None)) evs) = [].
Proof.
  assert (H : closed (exec (new (mkOptions None None))
                        [Listen; CreateConnection 3; ServerClosed;
                         CreateConnection 4; Connection]) = true)
    by reflexivity.
  split; [exact H|]. exact (closed_agent_has_no_waiters _ _ H).
Defined.

(** *** The pool *)

(** [indexOf] finds the first occurrence, or answers -1 when there is
    none. *)
Lemma indexOf_spec (s : socket) (l : list socket) :
  (indexOf s l = (-1)%Z /\ s ∉ l)
  \/ (exists l1 l2, l = l1 ++ s :: l2 /\ (s ∉ l1)
                    /\ indexOf s l = Z.of_nat (length l1)).
Proof.
  induction l as [|x l IH]; simpl.
  - left. split; [done|]. apply not_elem_of_nil.
  - destruct (decide (x = s)) as [->|Hne].
    + right. exists [], l. split; [done|]. split; [apply not_elem_of_nil|done].
    + destruct IH as [[Hi Hn]|(l1 & l2 & -> & Hn & Hi)].
      * left. rewrite Hi. simpl. split; [done|].
        apply not_elem_of_cons. by split; [congruence|].
      * right. exists (x :: l1), l2. split; [done|].
        split; [apply not_elem_of_cons; by split; [congruence|]|].
        rewrite Hi. destruct (Z.ltb_spec (Z.of_nat (length l1)) 0); [lia|].
        simpl length. lia.
Qed.

Lemma splice1_at (l1 l2 : list socket) (s : socket) :
  splice1 (Z.of_nat (length l1)) (l1 ++ s :: l2) = l1 ++ l2.
Proof.
  unfold splice1. rewrite Nat2Z.id, take_app_length.
  f_equal. replace (S (length l1)) with (length l1 + 1) by lia.
  rewrite <- drop_drop, drop_app_length. done.
Qed.

(** What the ['close'] listener does to the pool: it takes the socket out. *)
Lemma spliced_pool (s : socket) (l : list socket) :
  StronglySorted lt l ->
  let l' := if (0 <=? indexOf s l)%Z then splice1 (indexOf s l) l else l in
  StronglySorted lt l' /\ (s ∉ l') /\ (forall x, x ∈ l' -> x ∈ l).
Proof.
  intros Hs.
  destruct (indexOf_spec s l) as [[Hi Hn]|(l1 & l2 & -> & Hn & Hi)].
  - rewrite Hi. simpl. done.
  - rewrite Hi. destruct (Z.leb_spec 0 (Z.of_nat (length l1))); [|lia].
    cbv zeta. rewrite splice1_at.
    apply StronglySorted_app in Hs as (H12 & H1 & H2).
    apply StronglySorted_cons in H2 as [Hlt H2].
    split; [|split].
    + apply StronglySorted_app_2; [|done..].
      intros x1 x2 Hx1 Hx2. apply (H12 x1 x2 Hx1). by right.
    + intros Hin. apply elem_of_app in Hin as [Hin|Hin]; [done|].
      rewrite Forall_forall in Hlt. specialize (Hlt _ Hin). lia.
    + intros x Hx. apply elem_of_app in Hx as [Hx|Hx].
      * apply elem_of_app. by left.
      * apply elem_of_app. right. by right.
Qed.

Lemma pool_inv_new (o : TunnelAgentOptions) : pool_inv (new o).
Proof.
  split; simpl; [constructor|]. intros s Hs. by apply elem_of_nil in Hs.
Qed.

Lemma step_pool_inv (a : t) (e : event) :
  inv a -> pool_inv a -> pool_inv (step a e).1.
Proof.
  intros [Hc Hl] [Hsorted Hlive].
  destruct e; try (unfold_handlers; handler_cases; simpl; by split).
  - (* Connection *)
    unfold_handlers. handler_cases; simpl; try by split.
    all: split; simpl.
    all: try (apply StronglySorted_app_2; [|done|repeat constructor];
              intros x1 x2 Hx1 Hx2; apply list_elem_of_singleton in Hx2 as ->;
              by apply Hl, Hlive).
    all: try done.
    all: intros s Hs; apply elem_of_union.
    all: try (apply elem_of_app in Hs as [Hs|Hs];
              [right; by apply Hlive
              |apply list_elem_of_singleton in Hs as ->; left;
               by apply elem_of_singleton]).
    all: right; by apply Hlive.
  - (* SocketClose *)
    simpl. destruct (decide (s ∈ closeListeners a)); [|by split].
    pose proof (spliced_pool s (availableSockets a) Hsorted) as Hsp.
    cbv zeta in Hsp. unfold onSocketClose. simpl.
    destruct (0 <=? indexOf s (availableSockets a))%Z;
      destruct Hsp as (Hs' & Hnot & Hsub); simpl.
    all: match goal with
      | |- context [if ?c then _ else _] => destruct c
      end; split; simpl; try done.
    all: intros x Hx; apply elem_of_difference; split;
      [by apply Hlive, Hsub
      |rewrite elem_of_singleton; intros ->; by apply Hnot].
  - (* CreateConnection *)
    unfold_handlers. handler_cases; simpl; try by split.
    + split; simpl; by rewrite Heql.
    + apply StronglySorted_cons in Hsorted as [_ Hsorted].
      split; simpl; [done|]. intros x Hx. apply Hlive. by right.
Qed.

Lemma exec_pool_inv (a : t) (evs : list event) :
  inv a -> pool_inv a -> pool_inv (exec a evs).
Proof.
  revert a. induction evs as [|e evs IH]; intros a Hi Hp; simpl; [done|].
  apply IH; [by apply step_inv|by apply step_pool_inv].
Qed.

(** In every state a run reaches, the pool lists its sockets in the order
    they arrived, each once, and every one of them is a socket whose
    ['close'] event has not come yet; when the ['close'] event of a socket
    comes it leaves the pool and is never in it again, so it can no longer be
    handed to a [createConnection]. *)
Theorem pool_holds_live_sockets_in_order (o : TunnelAgentOptions)
  (evs : list event) :
  let a := exec (new o) evs in
  StronglySorted lt (availableSockets a)
  /\ NoDup (availableSockets a)
  /\ (forall s, s ∈ availableSockets a -> s ∈ closeListeners a)
  /\ (forall s evs', s ∈ closeListeners a ->
        s ∉ availableSockets (exec (step a (SocketClose s)).1 evs')).
Proof.
  intros a.
  assert (Hinv : inv a) by apply exec_inv, inv_new.
  assert (Hpool : pool_inv a)
    by (apply exec_pool_inv; [apply inv_new|apply pool_inv_new]).
  destruct Hpool as [Hsorted Hlive].
  split; [done|]. split; [|split; [done|]].
  - clear -Hsorted. induction Hsorted as [|x l Hl IH Hx]; constructor; [|done].
    intros Hin. rewrite Forall_forall in Hx. specialize (Hx _ Hin). lia.
  - intros s evs' Hs Hin.
    destruct (close_with_listener a s Hs) as (_ & Hgone & Hacc).
    assert (Hp' : pool_inv (exec (step a (SocketClose s)).1 evs')).
    { apply exec_pool_inv; [by apply step_inv|].
      apply step_pool_inv; [done|by split]. }
    apply (exec_listener_gone (step a (SocketClose s)).1 evs' s);
      [rewrite Hacc; by apply (proj2 Hinv)|done|].
    by apply (proj2 Hp').
Qed.

(** *** Deliveries *)

Lemma calledSockets_app (l1 l2 : list action) :
  calledSockets (l1 ++ l2) = calledSockets l1 ++ calledSockets l2.
Proof. unfold calledSockets. apply omap_app. Qed.

Lemma calledSockets_flush (l : list callback) :
  calledSockets
    (map (fun conn => Call conn (Some ErrClosed) None) l ++ [Emit End]) = [].
Proof. induction l as [|c l IH]; simpl; [done|]. exact IH. Qed.

Lemma sorted_NoDup (l : list socket) : StronglySorted lt l -> NoDup l.
Proof.
  induction 1 as [|x l Hl IH Hx]; constructor; [|done].
  intros Hin. rewrite Forall_forall in Hx. specialize (Hx _ Hin). lia.
Qed.

Lemma held_inv_new (o : TunnelAgentOptions) : held_inv (new o).
Proof.
  split; simpl; [constructor|]. intros s Hs. by apply elem_of_nil in Hs.
Qed.

(** One handler run takes at most one socket out of what the agent holds
    (to hand it to a callback, or because it closed while idle) or puts the
    socket just received into it. *)
Lemma step_held_shape (a : t) (e : event) :
  exists l1 l2 out new,
    held a = l1 ++ out ++ l2
    /\ held (step a e).1 = l1 ++ new ++ l2
    /\ (calledSockets (step a e).2 = [] \/ calledSockets (step a e).2 = out)
    /\ ((out = [] \/ exists s, out = [s]) /\ new = []
        \/ (out = [] /\ new = [accepted a]
            /\ accepted (step a e).1 = S (accepted a)
            /\ joined_now a e = [accepted a]))
    /\ accepted a <= accepted (step a e).1.
Proof.
  assert (Hsame : forall a' acts, held a' = held a ->
            accepted a <= accepted a' -> calledSockets acts = [] ->
            exists l1 l2 out new,
              held a = l1 ++ out ++ l2 /\ held a' = l1 ++ new ++ l2
              /\ (calledSockets acts = [] \/ calledSockets acts = out)
              /\ ((out = [] \/ exists s, out = [s]) /\ new = []
                  \/ (out = [] /\ new = [accepted a]
                      /\ accepted a' = S (accepted a)
                      /\ joined_now a e = [accepted a]))
              /\ accepted a <= accepted a').
  { intros a' acts Hh Hacc Hc. exists (held a), [], [], [].
    rewrite Hh, !app_nil_r. repeat split; [by left|left; split; [by left|done]
                                           |done]. }
  destruct e.
  - (* Listen *)
    simpl. unfold listen. destruct (started a); by apply Hsame.
  - (* Connection *)
    unfold step. destruct (started a) eqn:Hst; [|by apply Hsame].
    unfold _onConnection. simpl.
    destruct (numGe (connectedSockets a) (maxTcpSockets a)) eqn:Hroom;
      [apply Hsame; simpl; [done|lia|done]|].
    assert (Hj : joined_now a Connection = [accepted a]).
    { unfold joined_now, has_room. by rewrite Hst, Hroom. }
    destruct (waitingCreateConn a) as [|fn rest]; simpl.
    + exists (availableSockets a), (map snd (timers a)), [], [accepted a].
      unfold held. simpl. rewrite <- app_assoc. simpl.
      repeat split; [|right; done|lia].
      left. by destruct (connectedSockets a =? 0)%Z.
    + exists (availableSockets a ++ map snd (timers a)), [], [], [accepted a].
      unfold held. simpl. rewrite map_app, !app_nil_r, app_assoc. simpl.
      repeat split; [|right; done|lia].
      left. by destruct (connectedSockets a =? 0)%Z.
  - (* SocketClose *)
    simpl. destruct (decide (s ∈ closeListeners a)); [|by apply Hsame].
    unfold onSocketClose. simpl.
    destruct (indexOf_spec s (availableSockets a))
      as [[Hi Hn]|(l1 & l2 & Hl & Hn & Hi)]; rewrite Hi.
    + simpl.
      destruct (connectedSockets a - 1 <=? 0)%Z; by apply Hsame.
    + destruct (Z.leb_spec 0 (Z.of_nat (length l1))); [|lia].
      rewrite Hl, splice1_at. simpl.
      exists l1, (l2 ++ map snd (timers a)), [s], [].
      destruct (connectedSockets a - 1 <=? 0)%Z; unfold held; simpl;
        rewrite Hl, <- !app_assoc; simpl;
        (repeat split; [by left|left; split; [right; by eexists|done]|lia]).
  - (* SocketError *)
    simpl. destruct (decide (s ∈ errorListeners a)); by apply Hsame.
  - (* ServerClosed *)
    simpl. destruct (started a); [|by apply Hsame].
    apply Hsame; [done|simpl; lia|apply calledSockets_flush].
  - (* CreateConnection *)
    simpl. unfold createConnection. destruct (closed a); [by apply Hsame|].
    destruct (availableSockets a) as [|sock rest] eqn:Hav; [by apply Hsame|].
    exists [], (rest ++ map snd (timers a)), [sock], [].
    unfold held. simpl. rewrite Hav. simpl.
    repeat split; [by right|left; split; [right; by eexists|done]|lia].
  - (* Destroy *)
    by apply Hsame.
  - (* TimerFire *)
    simpl. destruct (timers a) as [|[fn s] rest] eqn:Ht; [by apply Hsame|].
    exists (availableSockets a), (map snd rest), [s], [].
    unfold held. simpl. rewrite Ht. simpl.
    repeat split; [by right|left; split; [right; by eexists|done]|lia].
Qed.

Lemma step_held_inv (a : t) (e : event) :
  held_inv a -> held_inv (step a e).1.
Proof.
  intros [Hnd Hlt].
  destruct (step_held_shape a e)
    as (l1 & l2 & out & new & Ha & Ha' & _ & Hkind & Hacc).
  rewrite Ha in Hnd. unfold held_inv. rewrite Ha'.
  destruct Hkind as [[_ ->] | (-> & -> & Hs & _)]; simpl in *.
  - split.
    + apply (sublist_NoDup (l1 ++ l2) (l1 ++ out ++ l2)); [done|].
      apply sublist_app; [done|]. by apply sublist_inserts_l.
    + intros s Hs. assert (s < accepted a); [|lia]. apply Hlt. rewrite Ha.
      apply elem_of_app in Hs as [Hs|Hs]; apply elem_of_app; [by left|].
      right. apply elem_of_app. by right.
  - split.
    + rewrite <- Permutation_middle. constructor; [|done].
      intros Hin. assert (accepted a < accepted a); [|lia]. apply Hlt.
      by rewrite Ha.
    + intros s Hin. apply elem_of_app in Hin as [Hin|Hin].
      * assert (s < accepted a); [|lia]. apply Hlt. rewrite Ha.
        apply elem_of_app. by left.
      * apply elem_of_cons in Hin as [->|Hin]; [lia|].
        assert (s < accepted a); [|lia]. apply Hlt. rewrite Ha.
        apply elem_of_app. by right.
Qed.

Lemma held_run (evs : list event) :
  forall a : t,
  held_inv a ->
  NoDup (calledSockets (trace a evs))
  /\ (forall s, s ∈ calledSockets (trace a evs) ->
        s ∈ held a \/ s ∈ joined a evs).
Proof.
  induction evs as [|e evs IH]; intros a Hinv; simpl.
  - split; [constructor|]. intros s Hs. by apply elem_of_nil in Hs.
  - pose proof (step_held_inv a e Hinv) as Hinv'.
    destruct (IH _ Hinv') as [IHnd IHin].
    destruct Hinv as [Hnd Hlt]. destruct Hinv' as [Hnd' Hlt'].
    destruct (step_held_shape a e)
      as (l1 & l2 & out & new & Ha & Ha' & Hc & Hkind & Hacc).
    rewrite calledSockets_app.
    assert (Hfresh : forall s, s ∈ joined (step a e).1 evs ->
                     accepted (step a e).1 <= s).
    { clear. generalize (step a e).1. induction evs as [|e' evs IH'];
        intros b s Hs; simpl in Hs; [by apply elem_of_nil in Hs|].
      apply elem_of_app in Hs as [Hs|Hs].
      - unfold joined_now in Hs. destruct e'; try by apply elem_of_nil in Hs.
        destruct (has_room b); [|by apply elem_of_nil in Hs].
        apply list_elem_of_singleton in Hs. lia.
      - specialize (IH' _ _ Hs).
        pose proof (step_accepted_mono b e'). lia. }
    assert (Hlater : forall s, s ∈ calledSockets (trace (step a e).1 evs) ->
              s ∈ l1 ++ new ++ l2 \/ s ∈ joined (step a e).1 evs).
    { intros s Hs. rewrite <- Ha'. by apply IHin. }
    split.
    + apply NoDup_app. split; [|split; [|done]].
      * destruct Hc as [-> | ->]; [constructor|].
        destruct Hkind as [[[-> | [s ->]] _] | (-> & _)];
          try constructor; [apply not_elem_of_nil|constructor].
      * intros s Hs Hs'.
        destruct Hc as [Hc|Hc]; rewrite Hc in Hs;
          [by apply elem_of_nil in Hs|].
        destruct Hkind as [[[-> | [s0 ->]] ->] | (-> & _)];
          try by apply elem_of_nil in Hs.
        apply list_elem_of_singleton in Hs as ->. simpl in *.
        destruct (Hlater _ Hs') as [Hin|Hin].
        -- rewrite Ha in Hnd. apply NoDup_app in Hnd as (_ & Hd1 & Hnd2).
           apply NoDup_cons in Hnd2 as [Hd2 _].
           apply elem_of_app in Hin as [Hin|Hin]; [|done].
           apply (Hd1 _ Hin). by left.
        -- specialize (Hfresh _ Hin).
           assert (s0 < accepted a); [|lia]. apply Hlt. rewrite Ha.
           apply elem_of_app. right. by left.
    + intros s Hs. apply elem_of_app in Hs as [Hs|Hs].
      * left. destruct Hc as [Hc|Hc]; rewrite Hc in Hs;
          [by apply elem_of_nil in Hs|].
        rewrite Ha. apply elem_of_app. right. apply elem_of_app. by left.
      * destruct (Hlater _ Hs) as [Hin|Hin].
        -- destruct Hkind as [[_ ->] | (-> & -> & _ & Hj)].
           ++ left. rewrite Ha. simpl in Hin.
              apply elem_of_app in Hin as [Hin|Hin]; apply elem_of_app;
                [by left|]. right. apply elem_of_app. by right.
           ++ simpl in Hin. apply elem_of_app in Hin as [Hin|Hin].
              ** left. rewrite Ha. apply elem_of_app. by left.
              ** apply elem_of_cons in Hin as [->|Hin].
                 --- right. rewrite Hj. by left.
                 --- left. rewrite Ha. apply elem_of_app. by right.
        -- right. apply elem_of_app. by right.
Qed.

(** Along every run each socket is handed to at most one callback, whether
    by [createConnection] itself or by a zero-delay timer, and every socket
    handed out is one [_onConnection] let in earlier in the run. *)
Theorem no_socket_delivered_twice (o : TunnelAgentOptions) (evs : list event) :
  NoDup (calledSockets (trace (new o) evs))
  /\ (forall s, s ∈ calledSockets (trace (new o) evs) ->
        s ∈ joined (new o) evs).
Proof.
  destruct (held_run evs (new o) (held_inv_new o)) as [Hnd Hin].
  split; [done|]. intros s Hs. destruct (Hin s Hs) as [H|H]; [|done].
  by apply elem_of_nil in H.
Qed.

(** *** Counting *)

Lemma step_listener_origin (a : t) (e : event) (s : socket) :
  s ∈ closeListeners (step a e).1 ->
  s ∈ closeListeners a \/ s ∈ joined_now a e.
Proof.
  unfold joined_now, has_room. unfold_handlers.
  destruct e; simpl; handler_cases; simpl; intros Hs; try (by left).
  all: try (apply elem_of_difference in Hs as [Hs _]; by left).
  all: apply elem_of_union in Hs as [Hs|Hs]; [|by left].
  all: apply elem_of_singleton in Hs as ->; right; by left.
Qed.

Lemma exec_listener_origin (evs : list event) :
  forall (a : t) (s : socket),
  s ∈ closeListeners (exec a evs) ->
  s ∈ closeListeners a \/ s ∈ joined a evs.
Proof.
  induction evs as [|e evs IH]; intros a s Hs; simpl in *; [by left|].
  destruct (IH _ _ Hs) as [H|H].
  - destruct (step_listener_origin a e s H) as [H'|H']; [by left|].
    right. apply elem_of_app. by left.
  - right. apply elem_of_app. by right.
Qed.

(** One handler run keeps the list of open sockets in step with the
    sockets that carry the one-shot ['close'] listener. *)
Lemma step_open (a : t) (e : event) (l : list socket) :
  inv a ->
  NoDup l -> (forall s, s ∈ l <-> s ∈ closeListeners a) ->
  let l' := match e with
            | SocketClose s => filter (fun x => x <> s) l
            | _ => l
            end ++ joined_now a e in
  NoDup l' /\ (forall s, s ∈ l' <-> s ∈ closeListeners (step a e).1).
Proof.
  intros [_ Hlt] Hnd Hl.
  assert (Hsame : forall a', closeListeners a' = closeListeners a ->
            NoDup (l ++ []) /\
            (forall s, s ∈ l ++ [] <-> s ∈ closeListeners a')).
  { intros a' ->. by rewrite app_nil_r. }
  destruct e; cbv zeta; unfold joined_now, has_room.
  - simpl. unfold listen. destruct (started a); by apply Hsame.
  - unfold step. destruct (started a); [|by apply Hsame]. simpl.
    unfold _onConnection. simpl.
    destruct (numGe (connectedSockets a) (maxTcpSockets a));
      [by apply Hsame|]. simpl.
    assert (Hfresh : accepted a ∉ l).
    { intros Hin. apply Hl, Hlt in Hin. lia. }
    assert (Hgoal : NoDup (l ++ [accepted a]) /\
              (forall s, s ∈ l ++ [accepted a]
                         <-> s ∈ {[accepted a]} ∪ closeListeners a)).
    { split.
      - apply NoDup_app. split; [done|]. split; [|apply NoDup_singleton].
        intros x Hx Hx'. apply list_elem_of_singleton in Hx' as ->. done.
      - intros s. rewrite elem_of_app, list_elem_of_singleton, elem_of_union,
          elem_of_singleton, Hl. tauto. }
    by destruct (waitingCreateConn a).
  - simpl. rewrite app_nil_r.
    destruct (decide (s ∈ closeListeners a)) as [Hs|Hs].
    + assert (Hcl : closeListeners
                (onSocketClose s
                   (set_closeListeners (closeListeners a ∖ {[s]}) a)).1
              = closeListeners a ∖ {[s]}).
      { unfold onSocketClose. simpl.
        destruct (0 <=? indexOf s (availableSockets a))%Z; simpl;
          by destruct (connectedSockets a - 1 <=? 0)%Z. }
      rewrite Hcl. split; [by apply NoDup_filter|].
      intros x. rewrite list_elem_of_filter, elem_of_difference,
        elem_of_singleton, Hl. tauto.
    + simpl. split; [by apply NoDup_filter|].
      intros x. rewrite list_elem_of_filter, Hl. split; [tauto|].
      intros Hx. split; [|done]. by intros ->.
  - simpl. destruct (decide (s ∈ errorListeners a)); by apply Hsame.
  - simpl. destruct (started a); by apply Hsame.
  - simpl. unfold createConnection. destruct (closed a); [by apply Hsame|].
    destruct (availableSockets a); by apply Hsame.
  - by apply Hsame.
  - simpl. destruct (timers a) as [|[fn s] rest]; by apply Hsame.
Qed.

Lemma exec_open (evs : list event) :
  forall (a : t) (l : list socket),
  inv a ->
  NoDup l -> (forall s, s ∈ l <-> s ∈ closeListeners a) ->
  NoDup (openSockets a l evs)
  /\ (forall s, s ∈ openSockets a l evs <-> s ∈ closeListeners (exec a evs)).
Proof.
  induction evs as [|e evs IH]; intros a l Hinv Hnd Hl; [done|].
  cbn [openSockets exec].
  destruct (step_open a e l Hinv Hnd Hl) as [Hnd' Hl'].
  apply IH; [by apply step_inv|done|done].
Qed.

(** [stats()] counts the open sockets: after any run the number it reports
    is exactly the number of sockets that [_onConnection] let in during the
    run and whose ['close'] event has not come since. *)
Theorem stats_counts_open_sockets (o : TunnelAgentOptions)
  (evs : list event) :
  let a := exec (new o) evs in
  stats a = Z.of_nat (length (openSockets (new o) [] evs))
  /\ NoDup (openSockets (new o) [] evs)
  /\ (forall s, s ∈ openSockets (new o) [] evs -> s ∈ joined (new o) evs).
Proof.
  intros a.
  destruct (exec_open evs (new o) [] (inv_new o) NoDup_nil_2)
    as [Hnd Hl].
  { intros s. simpl. split; intros Hs; [by apply elem_of_nil in Hs|].
    by apply not_elem_of_empty in Hs. }
  subst a. split; [|split; [done|]].
  - unfold stats. rewrite (proj1 (exec_inv (new o) evs (inv_new o))).
    f_equal. rewrite <- (size_list_to_set (C := gset socket)) by done.
    f_equal. apply set_eq. intros s. by rewrite elem_of_list_to_set, Hl.
  - intros s Hs. apply Hl in Hs.
    destruct (exec_listener_origin evs (new o) s Hs) as [H|H]; [|done].
    simpl in H. by apply not_elem_of_empty in H.
Qed.

(** The cap is fixed when the agent is built and no event changes it: it is
    the option given, except that an absent option and the option 0 both give
    10, so the cap is never 0. *)
Theorem cap_is_fixed_and_never_zero (o : TunnelAgentOptions)
  (evs : list event) :
  let a := exec (new o) evs in
  ~ (maxTcpSockets a == 0)%Q
  /\ (opt_maxTcpSockets o = None -> maxTcpSockets a = 10%Q)
  /\ (forall n, opt_maxTcpSockets o = Some n -> (n == 0)%Q ->
        maxTcpSockets a = 10%Q)
  /\ (forall n, opt_maxTcpSockets o = Some n -> ~ (n == 0)%Q ->
        maxTcpSockets a = n).
Proof.
  intros a. subst a. rewrite exec_maxTcpSockets. simpl. unfold or_default.
  destruct (opt_maxTcpSockets o) as [n|]; [|by repeat split].
  destruct (Qeq_bool n 0) eqn:Hn.
  - apply Qeq_bool_eq in Hn. repeat split; try done.
    intros n' [= ->] Hn'. done.
  - apply Qeq_bool_neq in Hn. repeat split; try done.
    + intros n' [= ->] Hn'. done.
    + by intros n' [= ->] _.
Qed.

(** [n] connections in a row on a listening agent: the count rises until it
    has reached the cap, that is up to the cap rounded up to an integer, and
    stays there.  The sockets let in are the first ones, as many as there was
    room for, and the later ones are refused. *)
Theorem connections_fill_up_to_the_cap (a : t) (n : nat) :
  started a = true ->
  let b := exec a (replicate n Connection) in
  connectedSockets b =
    Z.max (connectedSockets a)
          (Z.min (connectedSockets a + Z.of_nat n)
                 (Qceiling (maxTcpSockets a)))
  /\ joined a (replicate n Connection) =
       seq (accepted a)
           (Z.to_nat (Z.min (Z.of_nat n)
                            (Qceiling (maxTcpSockets a)
                             - connectedSockets a)))
  /\ accepted b = accepted a + n.
Proof.
  revert a. induction n as [|n IH]; intros a Hst.
  - cbv zeta. cbn [replicate exec joined].
    replace (Z.to_nat (Z.min (Z.of_nat 0)
               (Qceiling (maxTcpSockets a) - connectedSockets a)))
      with 0 by lia.
    repeat split; [lia|lia].
  - cbn [replicate exec joined].
    destruct (IH (step a Connection).1 (step_started_stays _ _ Hst))
      as (IHc & IHj & IHa).
    cbv zeta. rewrite IHc, IHj, IHa. clear IH IHc IHj IHa.
    rewrite step_maxTcpSockets.
    unfold joined_now, has_room. unfold_handlers. rewrite Hst. simpl.
    rewrite numGe_ceiling.
    destruct (Z.leb_spec (Qceiling (maxTcpSockets a)) (connectedSockets a))
      as [Hfull|Hroom].
    + simpl. repeat split; [lia| |lia].
      replace (Z.to_nat _) with 0 by lia.
      by replace (Z.to_nat _) with 0 by lia.
    + destruct (waitingCreateConn a); simpl.
      all: repeat split; [lia| |lia].
      all: replace (Z.to_nat (Z.min (Z.of_nat (S n))
                      (Qceiling (maxTcpSockets a) - connectedSockets a)))
             with (S (Z.to_nat (Z.min (Z.of_nat n)
                      (Qceiling (maxTcpSockets a)
                       - (connectedSockets a + 1))))) by lia.
      all: done.
Qed.

Lemma connections_fill_up_to_the_cap_witness :
  let a := exec (new (mkOptions None (Some (5 # 2)%Q))) [Listen] in
  started a = true
  /\ connectedSockets (exec a (replicate 5 Connection)) = 3%Z
  /\ joined a (replicate 5 Connection) = [0; 1; 2].
Proof.
  destruct (connections_fill_up_to_the_cap
              (exec (new (mkOptions None (Some (5 # 2)%Q))) [Listen]) 5
              eq_refl)
    as (Hc & Hj & _).
  split; [reflexivity|]. split; [exact Hc|exact Hj].
Defined.

(** *** Callbacks *)

Lemma completions_app (l1 l2 : list action) :
  completions (l1 ++ l2) = completions l1 ++ completions l2.
Proof. unfold completions. apply omap_app. Qed.

Lemma completions_flush (l : list callback) :
  completions
    (map (fun conn => Call conn (Some ErrClosed) None) l ++ [Emit End]) = l.
Proof. induction l as [|c l IH]; simpl; [done|]. by rewrite IH. Qed.

(** One handler run neither loses a callback nor completes one twice. *)
Lemma step_callbacks (a : t) (e : event) :
  completions (step a e).2 ++ pending (step a e).1
  ≡ₚ pending a ++ requests [e].
Proof.
  unfold pending. unfold_handlers.
  destruct e; simpl; handler_cases; simpl in *;
    rewrite ?completions_flush, ?map_app, ?app_nil_r; simpl; try done.
  all: repeat match goal with
    | H : waitingCreateConn _ = _ |- _ => rewrite H; clear H
    | H : timers _ = _ |- _ => rewrite H; clear H
    end; simpl; rewrite ?app_nil_r; try done.
  all: solve_Permutation.
Qed.

Lemma requests_cons (e : event) (evs : list event) :
  requests (e :: evs) = requests [e] ++ requests evs.
Proof. unfold requests. simpl. by destruct e. Qed.

Lemma run_callbacks (evs : list event) :
  forall a : t,
  completions (trace a evs) ++ pending (exec a evs)
  ≡ₚ pending a ++ requests evs.
Proof.
  induction evs as [|e evs IH]; intros a.
  - simpl. by rewrite app_nil_r.
  - cbn [trace exec]. rewrite completions_app, requests_cons, <- app_assoc.
    rewrite IH, !app_assoc. apply Permutation_app_tail, step_callbacks.
Qed.

(** No callback is lost and none is completed twice: at every instant of a
    run, the callbacks given to [createConnection] so far are, counted with
    multiplicity, those already completed (with a socket or an error), those
    bound to a pending zero-delay timer and those in the wait queue. *)
Theorem callbacks_are_conserved (o : TunnelAgentOptions) (evs : list event) :
  completions (trace (new o) evs) ++ pending (exec (new o) evs)
  ≡ₚ requests evs.
Proof. by rewrite run_callbacks. Qed.

(** *** Socket errors *)







End TunnelAgentExtra.
(** ** Further properties of the client *)

Module ClientExtra.
Import Client ClientProps.

(** *** The grace timer *)

Lemma dispatch_fields (acts : list TunnelAgent.action) (c : t) :
  agent (dispatch acts c).1 = agent c
  /\ id (dispatch acts c).1 = id c
  /\ closeOnce (dispatch acts c).1 = closeOnce c.
Proof.
  revert c. induction acts as [|x acts IH]; intros c; simpl; [done|].
  destruct x as [[]| | | | | |]; simpl.
  all: match goal with
    | |- context [dispatch ?l ?c'] =>
        destruct (IH c') as (Ha & Hi & Hl);
        destruct (dispatch l c') as [c2 o2]
    end; simpl in *; by rewrite Ha, Hi, Hl.
Qed.

Lemma emits_cons (x : TunnelAgent.agent_event) (y : TunnelAgent.action)
  (acts : list TunnelAgent.action) :
  TunnelAgent.emits x (y :: acts) =
    (if decide (y = TunnelAgent.Emit x) then 1 else 0)
    + TunnelAgent.emits x acts.
Proof.
  unfold TunnelAgent.emits. rewrite filter_cons.
  by destruct (decide (y = TunnelAgent.Emit x)).
Qed.

(** What the presence events among the calls of a handler leave of the
    grace timer, when there is at most one of them. *)
Lemma dispatch_grace (acts : list TunnelAgent.action) (c : t) :
  TunnelAgent.emits TunnelAgent.Online acts
  + TunnelAgent.emits TunnelAgent.Offline acts <= 1 ->
  graceTimeout (dispatch acts c).1 =
    if decide (TunnelAgent.emits TunnelAgent.Offline acts = 1) then true
    else if decide (TunnelAgent.emits TunnelAgent.Online acts = 1) then false
    else graceTimeout c.
Proof.
  revert c. induction acts as [|x acts IH]; intros c Hle; [done|].
  rewrite !emits_cons in Hle. rewrite !emits_cons.
  cbn [dispatch].
  destruct x as [[]| | | | | |]; cbn [onAgentEmit onAgentOnline onAgentOffline].
  all: match goal with
    | |- context [dispatch ?l ?c'] =>
        specialize (IH c'); destruct (dispatch l c') as [c2 o2]
    end; cbn [fst snd] in *.
  all: set (n := TunnelAgent.emits TunnelAgent.Online acts) in *;
    set (m := TunnelAgent.emits TunnelAgent.Offline acts) in *; clearbody n m.
  all: repeat first [rewrite decide_True in Hle by done
                    |rewrite decide_False in Hle by done].
  all: repeat first [rewrite (decide_True (P := _ = TunnelAgent.Emit _)) by done
                    |rewrite (decide_False (P := _ = TunnelAgent.Emit _)) by done].
  all: rewrite IH by lia; simpl.
  all: repeat case_decide; try lia; done.
Qed.

Lemma agentEvent_agent (e : TunnelAgent.event) (c : t) :
  agent (agentEvent e c).1 = (TunnelAgent.step (agent c) e).1.
Proof.
  unfold agentEvent. destruct (TunnelAgent.step (agent c) e) as [ag acts].
  by destruct (dispatch_fields acts (set_agent ag c)) as (-> & _).
Qed.

Lemma agentRun_agent (evs : list TunnelAgent.event) (c : t) :
  agent (agentRun c evs) = TunnelAgent.exec (agent c) evs.
Proof.
  revert c. induction evs as [|e evs IH]; intros c; simpl; [done|].
  by rewrite IH, agentEvent_agent.
Qed.

Lemma step_count_delta (a : TunnelAgent.t) (e : TunnelAgent.event) :
  let n := TunnelAgent.connectedSockets a in
  let n' := TunnelAgent.connectedSockets (TunnelAgent.step a e).1 in
  (n' = n \/ n' = n + 1 \/ n' = n - 1)%Z.
Proof.
  TunnelAgentProps.unfold_handlers.
  destruct e; simpl; TunnelAgentProps.handler_cases; simpl; lia.
Qed.

Lemma agentEvent_grace (e : TunnelAgent.event) (c : t) :
  TunnelAgent.inv (agent c) ->
  graceTimeout c =
    bool_decide (TunnelAgent.connectedSockets (agent c) = 0%Z) ->
  graceTimeout (agentEvent e c).1 =
    bool_decide
      (TunnelAgent.connectedSockets (agent (agentEvent e c).1) = 0%Z).
Proof.
  intros Hinv Hg. rewrite agentEvent_agent.
  pose proof (TunnelAgentProps.step_inv (agent c) e Hinv) as [Hc' _].
  destruct Hinv as [Hc Hl].
  destruct (TunnelAgentProps.step_edges (agent c) e (conj Hc Hl))
    as [Hon Hoff].
  pose proof (step_count_delta (agent c) e) as Hd. cbv zeta in Hd.
  unfold agentEvent.
  destruct (TunnelAgent.step (agent c) e) as [ag acts]. simpl in *.
  rewrite dispatch_grace; simpl.
  - rewrite Hon, Hoff, Hg.
    repeat case_bool_decide; repeat case_decide; try done; lia.
  - rewrite Hon, Hoff. repeat case_bool_decide; lia.
Qed.

(** The grace timer follows the agent's presence: for a Client built on a
    new agent, after any sequence of events of that agent (and as long as
    [close()] has not been called) the timer is armed exactly when no tunnel
    socket is connected.  The Client's listeners never touch the agent. *)
Theorem grace_timer_tracks_connections (cid : string)
  (o : TunnelAgent.TunnelAgentOptions) (evs : list TunnelAgent.event) :
  let c := agentRun (new cid (TunnelAgent.new o)).1 evs in
  agent c = TunnelAgent.exec (TunnelAgent.new o) evs
  /\ graceTimeout c =
       bool_decide (TunnelAgent.connectedSockets (agent c) = 0%Z).
Proof.
  intros c. split; [apply agentRun_agent|]. subst c.
  assert (Hgen : forall c0,
            TunnelAgent.inv (agent c0) ->
            graceTimeout c0 =
              bool_decide (TunnelAgent.connectedSockets (agent c0) = 0%Z) ->
            graceTimeout (agentRun c0 evs) =
              bool_decide
                (TunnelAgent.connectedSockets (agent (agentRun c0 evs)) = 0%Z)).
  { induction evs as [|e evs IH]; intros c0 Hinv Hg; simpl; [done|].
    apply IH.
    - rewrite agentEvent_agent. by apply TunnelAgentProps.step_inv.
    - by apply agentEvent_grace. }
  apply Hgen; [apply TunnelAgentProps.inv_new|done].
Qed.

(** *** Upgrades *)

(** The callback of [handleUpgrade] has three outcomes and no other.  It
    writes on a pooled socket only when it was given one without an error
    and the external socket is still readable and writable, and what it
    writes is the prologue; in every other case it ends the external socket;
    and it destroys the pooled socket exactly when it was given one without
    an error but the external socket has gone. *)
Theorem upgrade_callback_outcomes (req : IncomingMessage)
  (socket : ExternalSocket) (err : option TunnelAgent.error)
  (conn : option TunnelAgent.socket) :
  let acts := upgradeCallback req socket err conn in
  let usable := readable socket && writable socket in
  (forall s d, ConnWrite s d ∈ acts <->
     err = None /\ conn = Some s /\ usable = true /\ d = prologue req)
  /\ (SocketEnd ∈ acts <->
      ~ (err = None /\ is_Some conn /\ usable = true))
  /\ (forall s, ConnDestroy s ∈ acts <->
      err = None /\ conn = Some s /\ usable = false)
  /\ (forall src dst, Pump src dst ∈ acts -> exists s d, ConnWrite s d ∈ acts).
Proof.
  unfold upgradeCallback.
  destruct err as [e|], conn as [c|], socket as [[] []]; simpl.
  all: split; [|split; [|split]].
  all: try (intros src dst Hin;
            repeat (apply elem_of_cons in Hin as [Hin|Hin];
                    [try discriminate|]);
            try (by apply elem_of_nil in Hin);
            exists c, (prologue req); by repeat constructor).
  all: intros; rewrite ?elem_of_cons, ?elem_of_nil; unfold is_Some.
  all: split; [intros H|intros H].
  all: repeat match goal with
    | H : _ \/ _ |- _ => destruct H as [H|H]
    | H : _ /\ _ |- _ => destruct H
    | H : False |- _ => destruct H
    | H : ex _ |- _ => destruct H
    end; simplify_eq; try done.
  all: try (by left); try (by right; left); try (by right; right; left).
  all: try (repeat split; by eauto).
  all: try (intros (_ & [? ?] & _); discriminate).
  all: try (intros (? & _); discriminate).
  all: try (intros (_ & _ & ?); discriminate).
  all: try (exfalso; apply H; repeat split; by eauto).
Qed.

Lemma pairs_unpaired (x : string) (n : nat) :
  forall l : list string, length l = 2 * n -> pairs (l ++ [x]) = pairs l.
Proof.
  induction n as [|n IH]; intros l Hl.
  - by destruct l.
  - destruct l as [|k [|v l]]; simpl in Hl; try lia.
    simpl. rewrite IH; [done|lia].
Qed.

(** The header loop stops one short of the end of [rawHeaders]: a name left
    without a value at the end of the list is not written, so the prologue
    is the same with and without it; and with no raw header at all the
    prologue is the request line and a blank line. *)
Theorem prologue_drops_unpaired_name (u m v : string) (h : headers)
  (l : list string) (x : string) :
  Nat.even (length l) = true ->
  prologue (mkReq u m v h (l ++ [x])) = prologue (mkReq u m v h l)
  /\ prologue (mkReq u m v h []) =
       m +:+ " " +:+ u +:+ " HTTP/" +:+ v +:+ CRLF +:+ CRLF
  /\ prologue (mkReq u m v h [x]) = prologue (mkReq u m v h []).
Proof.
  intros Heven. split; [|split].
  - rewrite !prologue_refines. unfold prologue_spec. simpl.
    apply Nat.even_spec in Heven as [n Hn].
    by rewrite (pairs_unpaired x n l Hn).
  - by rewrite prologue_refines.
  - by rewrite !prologue_refines.
Qed.

Lemma prologue_drops_unpaired_name_witness :
  Nat.even (length ["Host"; "a.example"]) = true
  /\ prologue (mkReq "/" "GET" "1.1" [] (["Host"; "a.example"] ++ ["Upgrade"]))
     = prologue (mkReq "/" "GET" "1.1" [] ["Host"; "a.example"]).
Proof.
  split; [reflexivity|].
  exact (proj1 (prologue_drops_unpaired_name "/" "GET" "1.1" []
                  ["Host"; "a.example"] "Upgrade" eq_refl)).
Defined.

(** [handleUpgrade] and its callback together.  On a closed agent the
    external socket is ended at once and the agent is untouched.  On an open
    agent with an empty pool the callback is queued and nothing else happens.
    With a socket in the pool, its head is taken out and either carries the
    upgrade (both pipes, then the prologue) or, when the external socket is
    no longer readable and writable, is destroyed while the external socket
    is ended. *)
Theorem upgrade_end_to_end (req : IncomingMessage) (socket : ExternalSocket)
  (cb : TunnelAgent.callback) (c : t) :
  (TunnelAgent.closed (agent c) = true ->
     upgrade req socket cb c =
       (c, [AgentDoes (TunnelAgent.Call cb (Some TunnelAgent.ErrClosed) None);
            SocketEnd]))
  /\ (TunnelAgent.closed (agent c) = false ->
      TunnelAgent.availableSockets (agent c) = [] ->
      upgrade req socket cb c =
        (set_agent
           (TunnelAgent.set_waitingCreateConn
              (TunnelAgent.waitingCreateConn (agent c) ++ [cb]) (agent c)) c,
         []))
  /\ (forall s rest,
      TunnelAgent.closed (agent c) = false ->
      TunnelAgent.availableSockets (agent c) = s :: rest ->
      upgrade req socket cb c =
        (set_agent (TunnelAgent.set_availableSockets rest (agent c)) c,
         AgentDoes (TunnelAgent.Call cb None (Some s))
         :: (if readable socket && writable socket
             then [Pump (Conn s) ExtSocket; Pump ExtSocket (Conn s);
                   ConnWrite s (prologue req)]
             else [ConnDestroy s; SocketEnd]))).
Proof.
  unfold upgrade, handleUpgrade, TunnelAgent.createConnection.
  split; [|split].
  - intros ->. simpl. destruct (decide (cb = cb)); [|done].
    by destruct c.
  - by intros -> ->.
  - intros s rest -> ->. simpl. destruct (decide (cb = cb)); [|done].
    by destruct (readable socket), (writable socket).
Qed.

Lemma upgrade_end_to_end_witness :
  let ag := TunnelAgent.exec (TunnelAgent.new (TunnelAgent.mkOptions None None))
              [TunnelAgent.Listen; TunnelAgent.Connection] in
  let c := mk ag "alpha" false [] in
  let req := mkReq "/ws" "GET" "1.1" [] ["Upgrade"; "websocket"] in
  TunnelAgent.closed (agent c) = false
  /\ TunnelAgent.availableSockets (agent c) = [0]
  /\ (upgrade req (mkExt false true) 9 c).2 =
       [AgentDoes (TunnelAgent.Call 9 None (Some 0)); ConnDestroy 0; SocketEnd].
Proof.
  split; [reflexivity|]. split; [reflexivity|].
  pose proof (proj2 (proj2 (upgrade_end_to_end
    (mkReq "/ws" "GET" "1.1" [] ["Upgrade"; "websocket"]) (mkExt false true) 9
    (mk (TunnelAgent.exec (TunnelAgent.new (TunnelAgent.mkOptions None None))
           [TunnelAgent.Listen; TunnelAgent.Connection]) "alpha" false [])))
    0 [] eq_refl eq_refl) as H.
  cbv zeta. rewrite H. reflexivity.
Defined.

End ClientExtra.
(** ** Further properties of the client manager *)

Module ClientManagerExtra.
Import ClientManager ClientManagerProps.

(** *** [removeClient] *)

(** Removing a registered client: the count goes down by one, the id is no
    longer registered, the Client is closed once (its timer cancelled, its
    agent destroyed, ['close'] emitted once), and no other registered client
    is affected. *)
Theorem removeClient_registered (fuel : nat) (id : string) (m : t)
  (addr : nat) :
  wf m -> clients m !! id = Some addr ->
  exists m' acts c',
    removeClient (S (S fuel)) id m = Some (m', acts)
    /\ tunnels m' = (tunnels m - 1)%Z
    /\ hasClient id m' = false
    /\ size (clients m') = pred (size (clients m))
    /\ Client.closeEmissions acts = 1
    /\ store m' !! addr = Some c'
    /\ Client.graceTimeout c' = false /\ Client.closeOnce c' = []
    /\ (forall k, k <> id ->
          hasClient k m' = hasClient k m /\ getClient k m' = getClient k m).
Proof.
  intros Hwf Hid. destruct (proj1 Hwf _ _ Hid) as (c & Hc & Hidc).
  eexists _, _, _. split; [by apply (removeClient_hit fuel id m addr c)|].
  simpl. split; [done|]. split.
  { apply hasClient_false. simpl. apply lookup_delete_eq. }
  split; [apply map_size_delete_Some; by eexists|].
  split; [done|]. split; [apply lookup_insert_eq|]. split; [done|].
  split; [done|]. intros k Hk. unfold hasClient, getClient. simpl.
  rewrite lookup_delete_ne by done. split; [done|].
  destruct (clients m !! k) as [ak|] eqn:Hak; [|done]. simpl.
  rewrite lookup_insert_ne; [done|]. intros <-.
  destruct (proj1 Hwf _ _ Hak) as (ck & Hck & Hidk). congruence.
Qed.

Lemma wf_one_client :
  wf (mk None {["alpha" := 0]} 1%Z
        {[0 := Client.mk (TunnelAgent.new
                            (TunnelAgent.mkOptions (Some "alpha") None))
                 "alpha" true ["alpha"]]} 0).
Proof.
  split; simpl.
  - intros k a Hk. apply lookup_singleton_Some in Hk as [<- <-].
    eexists. split; [apply lookup_singleton_eq|done].
  - intros a c l Hc Hl. apply lookup_singleton_Some in Hc as [<- <-].
    simpl in Hl. by apply list_elem_of_singleton in Hl.
Qed.

Lemma removeClient_registered_witness :
  let m := mk None {["alpha" := 0]} 1%Z
             {[0 := Client.mk (TunnelAgent.new
                                 (TunnelAgent.mkOptions (Some "alpha") None))
                      "alpha" true ["alpha"]]} 0 in
  wf m /\ clients m !! "alpha" = Some 0
  /\ exists m' acts,
       removeClient 2 "alpha" m = Some (m', acts)
       /\ tunnels m' = 0%Z /\ hasClient "alpha" m' = false.
Proof.
  split; [exact wf_one_client|]. split; [reflexivity|].
  destruct (removeClient_registered 0 "alpha" _ 0 wf_one_client eq_refl)
    as (m' & acts & c' & Hrm & Ht & Hhas & _).
  exists m', acts. split; [exact Hrm|]. split; [exact Ht|exact Hhas].
Defined.

(** [removeClient] twice: whatever the first call did, the second finds
    nothing under the id, makes no call and changes nothing, the count
    included; the same holds for an id that was never registered. *)
Theorem removeClient_twice (fuel : nat) (id : string) (m m' : t)
  (acts : list Client.action) :
  wf m ->
  removeClient (S (S fuel)) id m = Some (m', acts) ->
  removeClient (S (S fuel)) id m' = Some (m', [])
  /\ (clients m !! id = None -> m' = m /\ acts = []).
Proof.
  intros Hwf Hrm. destruct (clients m !! id) as [addr|] eqn:Hid.
  - destruct (proj1 Hwf _ _ Hid) as (c & Hc & _).
    rewrite (removeClient_hit fuel id m addr c Hwf Hid Hc) in Hrm.
    injection Hrm as <- <-. split; [|done].
    apply removeClient_miss. simpl. apply lookup_delete_eq.
  - rewrite removeClient_miss in Hrm by done. injection Hrm as <- <-.
    split; [by apply removeClient_miss|done].
Qed.

Lemma removeClient_twice_witness :
  let m := mk None {["alpha" := 0]} 1%Z
             {[0 := Client.mk (TunnelAgent.new
                                 (TunnelAgent.mkOptions (Some "alpha") None))
                      "alpha" true ["alpha"]]} 0 in
  exists m1 acts,
    wf m
    /\ removeClient 2 "alpha" m = Some (m1, acts)
    /\ tunnels m1 = 0%Z
    /\ removeClient 2 "alpha" m1 = Some (m1, []).
Proof.
  destruct (removeClient_registered 0 "alpha" _ 0 wf_one_client eq_refl)
    as (m1 & acts & c' & Hrm & Ht & _).
  exists m1, acts. split; [exact wf_one_client|]. split; [exact Hrm|].
  split; [exact Ht|].
  exact (proj1 (removeClient_twice 0 "alpha" _ m1 acts wf_one_client Hrm)).
Defined.

(** *** [newClient] *)

Lemma or10_not_zero (o : option Q) : ~ (or10 o == 0)%Q.
Proof.
  unfold or10. destruct o as [n|]; [|done].
  destruct (Qeq_bool n 0) eqn:Hn; [done|]. by apply Qeq_bool_neq.
Qed.

(** A [newClient] call whose [listen] resolves, read back: the id it returns
    is registered, [getClient] finds under it a Client carrying that id
    whose grace timer is armed and whose agent is listening, and the
    [max_conn_count] reported is the cap that agent enforces; that cap is the
    configured [max_tcp_sockets], or 10 when none or 0 is configured. *)
Theorem newClient_then_lookup (hri : nat -> string) (fuel : nat)
  (id : string) (p : Z) (m m' : t) (info : ClientInfo) :
  newClient hri fuel id (Resolves p) m = Some (m', inr info) ->
  hasClient (info_id info) m' = true
  /\ port info = p
  /\ max_conn_count info = or10 (opt_max_tcp_sockets m)
  /\ ~ (max_conn_count info == 0)%Q
  /\ exists c,
       getClient (info_id info) m' = Some c
       /\ Client.id c = info_id info
       /\ Client.graceTimeout c = true
       /\ TunnelAgent.started (Client.agent c) = true
       /\ TunnelAgent.closed (Client.agent c) = false
       /\ TunnelAgent.maxTcpSockets (Client.agent c) = max_conn_count info
       /\ Client.stats c = 0%Z.
Proof.
  rewrite newClient_resolved. intros [= <- <-]. simpl.
  split; [apply hasClient_true; simpl; rewrite lookup_insert_eq; by eexists|].
  split; [done|]. split; [done|]. split; [apply or10_not_zero|].
  eexists. unfold getClient. simpl. rewrite lookup_insert_eq. simpl.
  rewrite lookup_insert_eq. repeat split.
  simpl. pose proof (or10_not_zero (opt_max_tcp_sockets m)) as Hnz.
  destruct (Qeq_bool (or10 (opt_max_tcp_sockets m)) 0) eqn:Hz; [|done].
  by apply Qeq_bool_eq in Hz.
Qed.

Lemma newClient_then_lookup_witness :
  exists m' info,
    newClient (fun _ => "beta") 3 "alpha" (Resolves 4000) (new (Some 0%Q))
      = Some (m', inr info)
    /\ hasClient (info_id info) m' = true
    /\ max_conn_count info = 10%Q.
Proof.
  pose proof (newClient_resolved (fun _ => "beta") 3 "alpha" 4000
                (new (Some 0%Q))) as Hnew.
  cbv zeta in Hnew.
  destruct (newClient_then_lookup _ _ _ _ _ _ _ Hnew)
    as (Hhas & _ & Hmax & _).
  eexists _, _. split; [exact Hnew|]. split; [exact Hhas|exact Hmax].
Defined.

(** *** The count of tunnels *)

(** When nothing runs during the [await], the count follows the registry:
    if [stats.tunnels] is the size of the registry, it still is after a
    [newClient] call whose [listen] resolves and which registers under an id
    that was free (the requested id when it is free, else the generated one),
    and after any [removeClient] call. *)
Theorem tunnels_follow_registry (hri : nat -> string) (fuel : nat)
  (id : string) (p : Z) (m : t) :
  wf m ->
  tunnels m = Z.of_nat (size (clients m)) ->
  (forall m' info,
     hasClient (chosen hri id m) m = false ->
     newClient hri fuel id (Resolves p) m = Some (m', inr info) ->
     wf m' /\ tunnels m' = Z.of_nat (size (clients m')))
  /\ (forall m' acts,
     removeClient (S (S fuel)) id m = Some (m', acts) ->
     wf m' /\ tunnels m' = Z.of_nat (size (clients m'))).
Proof.
  intros Hwf Ht. split.
  - intros m' info Hfree Hnew.
    split; [by apply (newClient_wf hri fuel id p m m' info)|].
    rewrite newClient_resolved in Hnew. injection Hnew as <- _. simpl.
    apply hasClient_false in Hfree.
    rewrite map_size_insert_None by done. lia.
  - intros m' acts Hrm.
    split; [by apply (removeClient_wf fuel id m m' acts)|].
    destruct (clients m !! id) as [addr|] eqn:Hid.
    + destruct (proj1 Hwf _ _ Hid) as (c & Hc & _).
      rewrite (removeClient_hit fuel id m addr c Hwf Hid Hc) in Hrm.
      injection Hrm as <- _. simpl.
      rewrite map_size_delete_Some by (by eexists).
      assert (size (clients m) <> 0)
        by (apply (map_size_ne_0_lookup_2 _ id); by eexists).
      lia.
    + rewrite removeClient_miss in Hrm by done. by injection Hrm as <- _.
Qed.

Lemma tunnels_follow_registry_witness :
  let m := mk None {["alpha" := 0]} 1%Z
             {[0 := Client.mk (TunnelAgent.new
                                 (TunnelAgent.mkOptions (Some "alpha") None))
                      "alpha" true ["alpha"]]} 0 in
  wf m /\ tunnels m = Z.of_nat (size (clients m))
  /\ exists m' info,
       hasClient (chosen (fun _ => "beta") "alpha" m) m = false
       /\ newClient (fun _ => "beta") 3 "alpha" (Resolves 4001) m
          = Some (m', inr info)
       /\ info_id info = "beta"
       /\ tunnels m' = Z.of_nat (size (clients m')).
Proof.
  assert (Ht : tunnels (mk None {["alpha" := 0]} 1%Z
             {[0 := Client.mk (TunnelAgent.new
                                 (TunnelAgent.mkOptions (Some "alpha") None))
                      "alpha" true ["alpha"]]} 0)
               = Z.of_nat (size (clients (mk None {["alpha" := 0]} 1%Z
             {[0 := Client.mk (TunnelAgent.new
                                 (TunnelAgent.mkOptions (Some "alpha") None))
                      "alpha" true ["alpha"]]} 0)))) by reflexivity.
  split; [exact wf_one_client|]. split; [exact Ht|].
  pose proof (newClient_resolved (fun _ => "beta") 3 "alpha" 4001
                (mk None {["alpha" := 0]} 1%Z
             {[0 := Client.mk (TunnelAgent.new
                                 (TunnelAgent.mkOptions (Some "alpha") None))
                      "alpha" true ["alpha"]]} 0)) as Hnew.
  cbv zeta in Hnew.
  eexists _, _. split; [reflexivity|]. split; [exact Hnew|].
  split; [reflexivity|].
  exact (proj2 (proj1 (tunnels_follow_registry (fun _ => "beta") 3 "alpha"
                         4001 _ wf_one_client Ht) _ _ eq_refl Hnew)).
Defined.

(** *** The grace timer reaps a client *)

Lemma wf_store_closed (m : t) (addr : nat) (c : Client.t) :
  wf m -> store m !! addr = Some c ->
  wf (set_store (<[addr := (Client.close c).1.1]> (store m)) m).
Proof.
  intros [Hreg Hls] Hc. split; simpl.
  - intros k a Hk. destruct (Hreg _ _ Hk) as (ck & Hck & Hidk).
    destruct (decide (addr = a)) as [<-|Hne].
    + rewrite lookup_insert_eq. eexists. split; [done|]. simpl. congruence.
    + rewrite lookup_insert_ne by done. by eexists.
  - intros a c' l Hc' Hl. destruct (decide (addr = a)) as [<-|Hne].
    + rewrite lookup_insert_eq in Hc'. injection Hc' as <-.
      simpl in Hl. by apply elem_of_nil in Hl.
    + rewrite lookup_insert_ne in Hc' by done. by apply (Hls a c' l).
Qed.

(** When the grace timer of a registered client fires (or its agent reports
    an error), [close()] runs, its ['close'] listener calls [removeClient],
    which takes the client out of the registry, lowers the count by one and
    calls [close()] a second time: ['close'] is emitted twice, and no other
    entry of the registry changes. *)
Theorem timer_reaps_registered_client (fuel : nat) (id : string) (m : t)
  (addr : nat) (c : Client.t) :
  wf m -> clients m !! id = Some addr -> store m !! addr = Some c ->
  Client.closeOnce c = [id] ->
  exists m' acts,
    clientCloses (S (S fuel)) addr m = Some (m', acts)
    /\ clients m' = delete id (clients m)
    /\ hasClient id m' = false
    /\ tunnels m' = (tunnels m - 1)%Z
    /\ Client.closeEmissions acts = 2
    /\ store m' !! addr = Some (Client.close c).1.1.
Proof.
  intros Hwf Hid Hc Hl.
  pose proof (wf_store_closed m addr c Hwf Hc) as Hwf1.
  unfold clientCloses, closeClientWith. rewrite Hc.
  change (Client.close c)
    with ((Client.close c).1.1, (Client.close c).1.2, Client.closeOnce c).
  rewrite Hl. cbv beta iota. cbn [foldl].
  rewrite (removeClient_hit fuel id _ addr (Client.close c).1.1 Hwf1);
    [|done|simpl; apply lookup_insert_eq].
  eexists _, _. split; [done|]. simpl. split; [done|].
  split; [apply hasClient_false; simpl; apply lookup_delete_eq|].
  split; [done|]. split; [done|]. by rewrite insert_insert_eq, lookup_insert_eq.
Qed.

Lemma timer_reaps_registered_client_witness :
  let m := mk None {["alpha" := 0]} 1%Z
             {[0 := Client.mk (TunnelAgent.new
                                 (TunnelAgent.mkOptions (Some "alpha") None))
                      "alpha" true ["alpha"]]} 0 in
  wf m /\ clients m !! "alpha" = Some 0
  /\ exists m' acts,
       clientCloses 2 0 m = Some (m', acts)
       /\ hasClient "alpha" m' = false
       /\ tunnels m' = 0%Z
       /\ Client.closeEmissions acts = 2.
Proof.
  split; [exact wf_one_client|]. split; [reflexivity|].
  destruct (timer_reaps_registered_client 0 "alpha" _ 0 _ wf_one_client
              eq_refl eq_refl eq_refl)
    as (m' & acts & Hcl & _ & Hhas & Ht & Hem & _).
  exists m', acts. split; [exact Hcl|]. split; [exact Hhas|].
  split; [exact Ht|exact Hem].
Defined.

End ClientManagerExtra.
